(** * Routine profile refresh (ts/routineProfileRefresh.ts)

    A shallow embedding of the candidate selection, the throttle gate, the
    refresh pass and the scheduler loop of [routineProfileRefresh.ts], and
    the properties of them that the specification states.

    Conventions of the embedding:
    - timestamps and durations are integral milliseconds, modelled by [Z];
    - a [ConversationModel] is a mutable object: the embedding keeps a store
      from object references to attributes, and every list of conversations
      is a list of references, so that an object reached twice (listed
      directly and as a group member) is one object;
    - [Date.now()] is the [now] argument: the selection is synchronous, and
      one reading of the clock is used for one selection. *)

From Stdlib Require Import ZArith Lia.
From stdpp Require Import base gmap sets list strings sorting.

(** ** Durations *)

(** Modelled from the spec: [util/durations] is not among the sources; the
    spec gives the values used here (1 minute, 12 hours, 24 hours, 30 days),
    counted in milliseconds as [Date.now()] counts them. *)
Definition SECOND : Z := 1000.
Definition MINUTE : Z := 60 * SECOND.
Definition HOUR : Z := 60 * MINUTE.
Definition DAY : Z := 24 * HOUR.
Definition MONTH : Z := 30 * DAY.

Definition STORAGE_KEY : string := "lastAttemptedToRefreshProfilesAt".
Definition MAX_AGE_TO_BE_CONSIDERED_ACTIVE : Z := MONTH.
Definition MAX_AGE_TO_BE_CONSIDERED_RECENTLY_REFRESHED : Z := DAY.
Definition MAX_CONVERSATIONS_TO_REFRESH : nat := 50.
Definition MIN_ELAPSED_DURATION_TO_REFRESH_AGAIN : Z := 12 * HOUR.
Definition MIN_REFRESH_DELAY : Z := MINUTE.

(** ** Values *)

(** What [storage.get] may hand back: the storage is untyped at run time,
    which is why the source checks the value before using it. *)
Inductive JsValue :=
  | JsUndefined
  | JsNull
  | JsNumber (n : Z)
  | JsNaN
  | JsInfinity (negative : bool)
  | JsString (s : string).

(** A timestamp attribute of a conversation ([number | null | undefined]).
    The number is a count of milliseconds; NaN and the infinities are left
    out of the attribute type. *)
Inductive Stamp :=
  | Undefined
  | Null
  | Millis (t : Z).

Definition toJs (s : Stamp) : JsValue :=
  match s with
  | Undefined => JsUndefined
  | Null => JsNull
  | Millis t => JsNumber t
  end.

Coercion toJs : Stamp >-> JsValue.

(** lodash's [isNil]. *)
Definition isNil (v : JsValue) : bool :=
  match v with
  | JsUndefined | JsNull => true
  | _ => false
  end.

(** Modelled from the spec: [util/isNormalNumber] is not among the sources;
    the spec speaks of a "valid numeric timestamp": a number that is neither
    NaN nor infinite. *)
Definition isNormalNumber (v : JsValue) : bool :=
  match v with
  | JsNumber _ => true
  | _ => false
  end.

(** ** Conversations *)

Definition Ref := nat.

Inductive ConversationType :=
  | Private
  | Group
  | OtherType (name : string).

Inductive Credential :=
  | CredentialUndefined
  | CredentialNull
  | CredentialValue (serialized : string).

Record Attrs := {
  conv_id : string;
  conv_type : ConversationType;
  uuid : option string;
  e164 : option string;
  active_at : Stamp;
  profileLastFetchedAt : Stamp;
  profileKeyCredential : Credential;
  profileKeyCredentialExpiration : Stamp;
  getMembers : list Ref
}.

Definition Heap := Ref → Attrs.

(** [conversation.set({ profileKeyCredential: null,
    profileKeyCredentialExpiration: null })] on the attributes. *)
Definition clearCredential (a : Attrs) : Attrs :=
  {| conv_id := conv_id a;
     conv_type := conv_type a;
     uuid := uuid a;
     e164 := e164 a;
     active_at := active_at a;
     profileLastFetchedAt := profileLastFetchedAt a;
     profileKeyCredential := CredentialNull;
     profileKeyCredentialExpiration := Null;
     getMembers := getMembers a |}.

(** The same, on the object [c] of the store. *)
Definition set_null (c : Ref) (h : Heap) : Heap :=
  fun r => if Nat.eqb r c then clearCredential (h c) else h r.

(** [ConversationModel.hasProfileKeyCredentialExpired] belongs to
    [models/conversations], which is not among the sources: it is a
    parameter of the development, a test on the attributes of the object at
    the current time. *)
Class ConversationModel := {
  hasProfileKeyCredentialExpired : Z → Attrs → bool
}.

(** Modelled from the spec: [hasProfileKeyCredentialExpired], for the
    concrete runs below; the glossary says that a credential is expired when
    its expiry timestamp has passed. *)
Definition expiryHasPassed : ConversationModel :=
  {| hasProfileKeyCredentialExpired now a :=
       match profileKeyCredentialExpiration a with
       | Millis expiration => (expiration <=? now)%Z
       | _ => false
       end |}.

(** ** The two freshness tests *)

Definition isConversationActive (now : Z) (conversation : Attrs) : bool :=
  let activeAt := active_at conversation in
  isNormalNumber activeAt &&
  match activeAt with
  | Millis t => (now <? t + MAX_AGE_TO_BE_CONSIDERED_ACTIVE)%Z
  | _ => false
  end.

Definition hasRefreshedProfileRecently (now : Z) (conversation : Attrs) : bool :=
  let fetchedAt := profileLastFetchedAt conversation in
  isNormalNumber fetchedAt &&
  match fetchedAt with
  | Millis t => (now <? t + MAX_AGE_TO_BE_CONSIDERED_RECENTLY_REFRESHED)%Z
  | _ => false
  end.

(** ** lodash's [sortBy]

    [sortBy] orders by lodash's [compareAscending] on the keys and breaks
    ties by the position in the input, so it is a stable sort.
    [compareAscending] puts every number before [null] and [null] before
    [undefined]. *)
Definition compareAscending (value other : Stamp) : comparison :=
  match value, other with
  | Millis a, Millis b => (a ?= b)%Z
  | Millis _, _ => Lt
  | Null, Millis _ => Gt
  | Null, Null => Eq
  | Null, Undefined => Lt
  | Undefined, Undefined => Eq
  | Undefined, _ => Gt
  end.

(** [value] does not sort after [other]. *)
Definition notAfter (value other : Stamp) : Prop :=
  compareAscending value other ≠ Gt.

Global Instance Stamp_eq_dec : EqDecision Stamp.
Proof. solve_decision. Defined.

Global Instance ConversationType_eq_dec : EqDecision ConversationType.
Proof. solve_decision. Defined.

Section SortBy.
Context {A : Type} (iteratee : A → Stamp).

(** [x] stood before every element of [sorted] in the input: it goes
    before the first element that is not smaller than it. *)
Fixpoint insertBy (x : A) (sorted : list A) : list A :=
  match sorted with
  | [] => [x]
  | y :: rest =>
      match compareAscending (iteratee x) (iteratee y) with
      | Gt => y :: insertBy x rest
      | _ => x :: y :: rest
      end
  end.

Fixpoint sortBy (collection : list A) : list A :=
  match collection with
  | [] => []
  | x :: rest => insertBy x (sortBy rest)
  end.
End SortBy.

(** ** Candidate selection *)

Inductive Error :=
  | MissingCaseError (type : string)
  | OtherError (message : string).

(** Modelled from the spec: [util/missingCaseError] is not among the
    sources; it makes the error that reports the kind nobody handles. *)
Definition missingCaseError (type : string) : Error := MissingCaseError type.

(** The generator [getFilteredConversations], suspended at a [yield]: the
    members of the group being iterated that are still to come, the sorted
    conversations still to come, and the set [conversationIdsSeen]. *)
Record Generator := {
  membersLeft : list Ref;
  conversationsLeft : list Ref;
  conversationIdsSeen : gset string
}.

(** What one resumption of the generator gives. *)
Inductive IteratorResult :=
  | Yielded (conversation : Ref) (resume : Generator) (h : Heap)
  | Done
  | Thrown (error : Error).

(** What the body of the [switch] does with one conversation. *)
Inductive Visit :=
  | Emit (conversation : Ref) (members : list Ref) (seen : gset string) (h : Heap)
  | Skip
  | Raise (error : Error).

(** How the iteration over the selection ends. *)
Inductive Completion :=
  | Completed
  | Raised (error : Error).

(** The selection as its consumer sees it: the conversations it was
    handed, the store afterwards, and whether the iteration ended or
    threw. *)
Record Selection := {
  emitted : list Ref;
  store : Heap;
  status : Completion
}.

Section Selection.
Context `{ConversationModel}.
Variable now : Z.
Variable ourConversationId : string.

(** The loop over [conversation.getMembers()], up to its next [yield]. *)
Fixpoint nextMember (members : list Ref) (seen : gset string) (h : Heap)
    : option (Ref * list Ref * gset string) :=
  match members with
  | [] => None
  | member :: rest =>
      if negb (bool_decide (conv_id (h member) ∈ seen)) &&
         negb (hasRefreshedProfileRecently now (h member))
      then Some (member, rest, {[conv_id (h member)]} ∪ seen)
      else nextMember rest seen h
  end.

Definition visit (conversation : Ref) (seen : gset string) (h : Heap) : Visit :=
  let c := h conversation in
  match conv_type c with
  | Private =>
      if hasProfileKeyCredentialExpired now c &&
         (String.eqb (conv_id c) ourConversationId ||
          negb (bool_decide (conv_id c ∈ seen)))
      then Emit conversation [] ({[conv_id c]} ∪ seen) (set_null conversation h)
      else if negb (bool_decide (conv_id c ∈ seen)) &&
              isConversationActive now c &&
              negb (hasRefreshedProfileRecently now c)
      then Emit conversation [] ({[conv_id c]} ∪ seen) h
      else Skip
  | Group =>
      match nextMember (getMembers c) seen h with
      | Some (member, rest, seen') => Emit member rest seen' h
      | None => Skip
      end
  | OtherType type => Raise (missingCaseError type)
  end.

(** The loop over [sorted], up to its next [yield]. *)
Fixpoint nextConversation (sorted : list Ref) (seen : gset string) (h : Heap)
    : IteratorResult :=
  match sorted with
  | [] => Done
  | conversation :: rest =>
      match visit conversation seen h with
      | Emit c members seen' h' =>
          Yielded c {| membersLeft := members;
                       conversationsLeft := rest;
                       conversationIdsSeen := seen' |} h'
      | Skip => nextConversation rest seen h
      | Raise error => Thrown error
      end
  end.

(** [generator.next()]. *)
Definition next (g : Generator) (h : Heap) : IteratorResult :=
  match nextMember (membersLeft g) (conversationIdsSeen g) h with
  | Some (member, rest, seen') =>
      Yielded member {| membersLeft := rest;
                        conversationsLeft := conversationsLeft g;
                        conversationIdsSeen := seen' |} h
  | None => nextConversation (conversationsLeft g) (conversationIdsSeen g) h
  end.

(** The generator before its first resumption. *)
Definition getFilteredConversations (conversations : list Ref) (h : Heap)
    : Generator :=
  {| membersLeft := [];
     conversationsLeft := sortBy (fun c => active_at (h c)) conversations;
     conversationIdsSeen := {[ourConversationId]} |}.

(** Modelled from the spec: [take] of [util/iterables] is not among the
    sources. The spec has the sequence truncated to the given number of
    elements, and the scan stopped once that many are produced: the
    generator is not resumed again. The function is the iteration of
    [take(generator, amount)] by the [for ... of] of the caller. *)
Fixpoint takeIterable (amount : nat) (g : Generator) (h : Heap) : Selection :=
  match amount with
  | O => {| emitted := []; store := h; status := Completed |}
  | S amount' =>
      match next g h with
      | Yielded c g' h' =>
          let later := takeIterable amount' g' h' in
          {| emitted := c :: emitted later;
             store := store later;
             status := status later |}
      | Done => {| emitted := []; store := h; status := Completed |}
      | Thrown error => {| emitted := []; store := h; status := Raised error |}
      end
  end.

Definition getConversationsToRefresh (conversations : list Ref) (h : Heap)
    : Selection :=
  takeIterable MAX_CONVERSATIONS_TO_REFRESH
               (getFilteredConversations conversations h) h.
End Selection.

(** ** The world of a pass

    The storage, the store of conversation objects, the clock and the log.
    Code that may throw is a [Task]: it takes the world and gives it back
    with a value or with the error thrown. *)

Inductive Level :=
  | Info
  | Warn
  | Err.

Inductive Message :=
  | WaitingFor (refreshInMs : Z)
  | MissingOurConversationId
  | Failure (error : Error)
  | Starting
  | TooSoon
  | UpdatingLastRefreshTime
  | StartingToRefresh
  | RefreshingProfileFor (conversation : Ref)
  | RefreshedProfileFor (conversation : Ref)
  | SuccessfullyRefreshed (successCount totalCount : nat)
  | AssertionFailed (message : string).

Record World := {
  storage : gmap string JsValue;
  heap : Heap;
  clock : Z;
  log : list (Level * Message)
}.

Inductive Result (A : Type) :=
  | Returns (a : A)
  | Throws (error : Error).

Arguments Returns {A} a.
Arguments Throws {A} error.

Definition Task (A : Type) : Type := World → Result A * World.

Definition ret {A} (a : A) : Task A := fun w => (Returns a, w).

Definition throw {A} (error : Error) : Task A := fun w => (Throws error, w).

Definition bind {A B} (m : Task A) (k : A → Task B) : Task B :=
  fun w =>
    match m w with
    | (Returns a, w') => k a w'
    | (Throws error, w') => (Throws error, w')
    end.

(** [try { m } catch (error) { handler }]. *)
Definition tryCatch {A} (m : Task A) (handler : Error → Task A) : Task A :=
  fun w =>
    match m w with
    | (Returns a, w') => (Returns a, w')
    | (Throws error, w') => handler error w'
    end.

Global Instance task_ret : MRet Task := @ret.
Global Instance task_bind : MBind Task := fun A B k m => bind m k.

Definition logAt (level : Level) (message : Message) : Task unit :=
  fun w =>
    (Returns tt,
     {| storage := storage w; heap := heap w; clock := clock w;
        log := log w ++ [(level, message)] |}).

Definition dateNow : Task Z := fun w => (Returns (clock w), w).

(** Reading what the collaborators read. *)
Definition getWorld : Task World := fun w => (Returns w, w).

(** [await sleep(ms)]: the clock is [ms] later. *)
Definition sleep (ms : Z) : Task unit :=
  fun w =>
    (Returns tt,
     {| storage := storage w; heap := heap w; clock := (clock w + ms)%Z;
        log := log w |}).

(** [storage.get(key)]: the value, or [undefined] when there is none. *)
Definition storageGet (key : string) : Task JsValue :=
  fun w => (Returns (default JsUndefined (storage w !! key)), w).

Definition storagePut (key : string) (value : JsValue) : Task unit :=
  fun w =>
    (Returns tt,
     {| storage := <[key := value]> (storage w); heap := heap w;
        clock := clock w; log := log w |}).

(** Modelled from the spec: [util/assert] is not among the sources. The
    spec has a failed check logged as a warning, and the caller carry on. *)
Definition assert (condition : bool) (message : string) : Task unit :=
  if condition then ret tt else logAt Warn (AssertionFailed message).

(** ** The throttle gate *)

Definition invalidStoredValue : string :=
  "An invalid value was stored in lastAttemptedToRefreshProfilesAt; treating it as nil".

Definition timeUntilNextRefresh : Task Z :=
  storedValue ← storageGet STORAGE_KEY;
  if isNil storedValue then ret 0%Z
  else if isNormalNumber storedValue then
    match storedValue with
    | JsNumber stored =>
        let planned := (stored + MIN_ELAPSED_DURATION_TO_REFRESH_AGAIN)%Z in
        now ← dateNow;
        ret (Z.max 0 (planned - now))
    | _ => ret 0%Z
    end
  else
    assert false invalidStoredValue;;
    ret 0%Z.

(** ** The pass *)

(** Calling an asynchronous function: what the call does to the world is
    done by the time the caller has the promise; whether the promise is
    fulfilled or rejected is what an [await] finds later. *)
Definition call {A} (m : Task A) : Task (Result A) :=
  fun w => let '(promise, w') := m w in (Returns promise, w').

(** [await promise]. *)
Definition await {A} (promise : Result A) : Task A := fun w => (promise, w).

(** A [refreshConversation] that is suspended at its [await]: the
    conversation, and the promise of [getProfileFn]. *)
Definition Started : Type := Ref * Result unit.

(** The [PQueue] of a pass: the fetches that are running, the oldest
    first, and the conversations that wait for one of them to settle. *)
Record Queue := {
  running : list Started;
  waiting : list Ref
}.

(** The [concurrency] of the queue. *)
Definition CONCURRENCY : nat := 5.

Definition setHeap (h : Heap) : Task unit :=
  fun w =>
    (Returns tt,
     {| storage := storage w; heap := h; clock := clock w; log := log w |}).

Section Pass.
Context `{ConversationModel}.

(** [getProfileFn(uuid, e164)]: it may do anything to the world, and its
    promise may be rejected. What a fetch does to the world is placed at
    its call. *)
Variable getProfileFn : option string → option string → Task unit.

(** [refreshConversation], on the two counters of the pass. *)
Definition refreshConversation (conversation : Ref) (counts : nat * nat)
    : Task (nat * nat) :=
  let '(totalCount, successCount) := counts in
  logAt Info (RefreshingProfileFor conversation);;
  let totalCount := S totalCount in
  tryCatch
    (w ← getWorld;
     getProfileFn (uuid (heap w conversation)) (e164 (heap w conversation));;
     logAt Info (RefreshedProfileFor conversation);;
     ret (totalCount, S successCount))
    (fun err =>
       logAt Err (RefreshedProfileFor conversation);;
       ret (totalCount, successCount)).

(** [refreshConversation] up to its [await]: the line in the log, the
    counter of the attempts, and the call of [getProfileFn]. This much is
    done, without a pause, when the queue starts the conversation. *)
Definition beginRefresh (conversation : Ref) (counts : nat * nat)
    : Task (Started * (nat * nat)) :=
  let '(totalCount, successCount) := counts in
  logAt Info (RefreshingProfileFor conversation);;
  let totalCount := S totalCount in
  w ← getWorld;
  promise ← call (getProfileFn (uuid (heap w conversation))
                               (e164 (heap w conversation)));
  ret ((conversation, promise), (totalCount, successCount)).

(** [refreshConversation] from its [await] on, when the promise has
    settled. *)
Definition finishRefresh (started : Started) (counts : nat * nat)
    : Task (nat * nat) :=
  let '(conversation, promise) := started in
  let '(totalCount, successCount) := counts in
  tryCatch
    (await promise;;
     logAt Info (RefreshedProfileFor conversation);;
     ret (totalCount, S successCount))
    (fun err =>
       logAt Err (RefreshedProfileFor conversation);;
       ret (totalCount, successCount)).

(** [refreshQueue.add(() => refreshConversation(conversation))]: with
    fewer than [concurrency] fetches running, the queue starts the
    conversation at once; otherwise the conversation waits. *)
Definition add (conversation : Ref) (q : Queue) (counts : nat * nat)
    : Task (Queue * (nat * nat)) :=
  if length (running q) <? CONCURRENCY then
    '(started, counts') ← beginRefresh conversation counts;
    ret ({| running := running q ++ [started]; waiting := waiting q |},
         counts')
  else
    ret ({| running := running q; waiting := waiting q ++ [conversation] |},
         counts).

Fixpoint addAll (conversations : list Ref) (q : Queue) (counts : nat * nat)
    : Task (Queue * (nat * nat)) :=
  match conversations with
  | [] => ret (q, counts)
  | conversation :: rest =>
      '(q', counts') ← add conversation q counts;
      addAll rest q' counts'
  end.

(** The loop [for (const conversation of conversationsToRefresh)
    refreshQueue.add(...)]. The loop has no [await]: the scan of the lazy
    selection and the calls of [add] are one piece, nothing that was
    started settles meanwhile, and when the scan throws the loop throws
    after the conversations handed out so far were added, the first
    [concurrency] of them started. The calls of [getProfileFn] that the
    loop makes are placed after the scan: a call is taken not to change
    what the scan reads. What the scan mutates is the store of the
    world. When the loop throws the pass is over: what was started
    settles by itself afterwards, and what waits is started as that
    settles; the queue is not followed past the end of its pass. *)
Definition dispatch (allConversations : list Ref) (ourConversationId : string)
    : Task (Queue * (nat * nat)) :=
  w ← getWorld;
  let selection :=
    getConversationsToRefresh (clock w) ourConversationId
                              allConversations (heap w) in
  setHeap (store selection);;
  '(q, counts) ← addAll (emitted selection)
                        {| running := []; waiting := [] |} (0, 0);
  match status selection with
  | Completed => ret (q, counts)
  | Raised error => throw error
  end.

(** The fetches that run settle, and their [refreshConversation]s
    finish. *)
Fixpoint settleAll (running : list Started) (counts : nat * nat)
    : Task (nat * nat) :=
  match running with
  | [] => ret counts
  | oldest :: others =>
      counts' ← finishRefresh oldest counts;
      settleAll others counts'
  end.

(** [await refreshQueue.onIdle()]: when a fetch settles, its
    [refreshConversation] finishes and the queue starts the next
    conversation that waits, until nothing waits and nothing runs. The
    fetches settle here in the order in which they were started; the
    counters do not depend on the order. The timeout of the queue is real
    time and has no counterpart here: a promise settles. *)
Fixpoint onIdle (waiting : list Ref) (running : list Started)
    (counts : nat * nat) : Task (nat * nat) :=
  match waiting with
  | [] => settleAll running counts
  | conversation :: rest =>
      match running with
      | [] =>
          '(started, counts') ← beginRefresh conversation counts;
          onIdle rest [started] counts'
      | oldest :: others =>
          counts' ← finishRefresh oldest counts;
          '(started, counts'') ← beginRefresh conversation counts';
          onIdle rest (others ++ [started]) counts''
      end
  end.

Definition routineProfileRefresh (allConversations : list Ref)
    (ourConversationId : string) : Task unit :=
  logAt Info Starting;;
  refreshInMs ← timeUntilNextRefresh;
  if (0 <? refreshInMs)%Z then logAt Info TooSoon
  else
    logAt Info UpdatingLastRefreshTime;;
    now ← dateNow;
    storagePut STORAGE_KEY (JsNumber now);;
    logAt Info StartingToRefresh;;
    '(q, counts) ← dispatch allConversations ourConversationId;
    counts' ← onIdle (waiting q) (running q) counts;
    logAt Info (SuccessfullyRefreshed (snd counts') (fst counts')).

(** ** The scheduler loop *)

(** The two collaborators of the loop read the state of the application;
    they are taken to return. *)
Variable getAllConversations : World → list Ref.
Variable getOurConversationId : World → option string.

(** Lines 46 to 51: wait until the next pass is due. *)
Definition waitForNextRefresh : Task unit :=
  refreshInMs ← timeUntilNextRefresh;
  logAt Info (WaitingFor refreshInMs);;
  sleep refreshInMs.

(** One turn of the [while (true)] of [start]. *)
Definition iteration : Task unit :=
  waitForNextRefresh;;
  w ← getWorld;
  match getOurConversationId w with
  | None | Some "" =>
      logAt Warn MissingOurConversationId;;
      sleep MIN_REFRESH_DELAY
  | Some ourConversationId =>
      tryCatch
        (routineProfileRefresh (getAllConversations w) ourConversationId)
        (fun error =>
           logAt Err (Failure error);;
           sleep MIN_REFRESH_DELAY)
  end.

(** The first [turns] turns of the loop. The loop has no exit: a turn
    that threw would end it, and the process with it. *)
Fixpoint start (turns : nat) : Task unit :=
  match turns with
  | O => ret tt
  | S turns' => iteration;; start turns'
  end.
End Pass.

(** * Notions used by the properties *)

(** The order that [sortBy] leaves on a collection. *)
Definition orderedBy {A : Type} (iteratee : A → Stamp) (x y : A) : Prop :=
  notAfter (iteratee x) (iteratee y).

(** [h'] is [h] with some credentials cleared. *)
Definition evolved (h h' : Heap) : Prop :=
  ∀ r, h' r = h r ∨ h' r = clearCredential (h r).

(** The store during a selection that began with [h0]: an object is as it
    was, or it was expired and has lost its credential. *)
Definition clearedIfExpired `{ConversationModel} (now : Z) (h0 h : Heap)
    : Prop :=
  ∀ r, h r = h0 r ∨
       (hasProfileKeyCredentialExpired now (h0 r) = true ∧
        h r = clearCredential (h0 r)).

(** The members that the loop over a group passes over. *)
Definition passedOver (now : Z) (seen : gset string) (h : Heap) (m : Ref)
    : Prop :=
  conv_id (h m) ∈ seen ∨ hasRefreshedProfileRecently now (h m) = true.

(** The time remaining as the specification puts it: nothing when no
    valid timestamp is stored, and otherwise what is left of the 12 hours
    that follow the stored timestamp. [timeUntilNextRefresh] is compared
    with it below. *)
Definition timeRemaining (stored : gmap string JsValue) (now : Z) : Z :=
  match stored !! STORAGE_KEY with
  | Some (JsNumber triggered) => Z.max 0 (triggered + 12 * HOUR - now)
  | _ => 0
  end.

(** The entries of a list that carry the local identity. *)
Definition ours (our : string) (h : Heap) (conversations : list Ref)
    : list Ref :=
  filter (λ c, conv_id (h c) = our) conversations.

(** The three ways into the selection, on the store the selection began
    with: an individual of the list whose credential is expired, an
    individual of the list that is active and was not refreshed of late,
    and a member of a group of the list that was not refreshed of late. The
    last two are closed to the local identity. *)
Definition justified `{ConversationModel} (now : Z) (our : string)
    (h : Heap) (conversations : list Ref) (c : Ref) : Prop :=
  (c ∈ conversations ∧ conv_type (h c) = Private ∧
   (hasProfileKeyCredentialExpired now (h c) = true ∨
    (conv_id (h c) ≠ our ∧
     isConversationActive now (h c) = true ∧
     hasRefreshedProfileRecently now (h c) = false))) ∨
  (conv_id (h c) ≠ our ∧
   hasRefreshedProfileRecently now (h c) = false ∧
   ∃ x, x ∈ conversations ∧ conv_type (h x) = Group ∧ c ∈ getMembers (h x)).

(** The conversations that a scan of [sorted] may hand out, in the order
    in which it comes to them: an individual itself, and the members of a
    group in their order. *)
Definition candidates (h : Heap) (sorted : list Ref) : list Ref :=
  sorted ≫= λ x,
    match conv_type (h x) with
    | Private => [x]
    | Group => getMembers (h x)
    | OtherType _ => []
    end.

(** A fetch that leaves alone what is stored under the key of the
    throttle. *)
Definition keepsThrottle
    (getProfileFn : option string → option string → Task unit) : Prop :=
  ∀ u e w, storage (getProfileFn u e w).2 !! STORAGE_KEY
           = storage w !! STORAGE_KEY.

(** Whatever it is called with, the fetch fails. *)
Definition alwaysFails
    (getProfileFn : option string → option string → Task unit) : Prop :=
  ∀ u e w0, ∃ error w1, getProfileFn u e w0 = (Throws error, w1).

(** A started fetch whose promise is rejected. *)
Definition rejected (started : Started) : Prop :=
  ∃ error, started.2 = Throws error.

(** Unfolding the notation of tasks down to [bind] and [ret]. *)
Ltac task_unfold := unfold mbind, task_bind, mret, task_ret in *.

(** A decidable statement about concrete data, settled by evaluation. *)
Ltac by_evaluation := apply (bool_decide_unpack _); vm_compute; exact I.

(** * Concrete conversations

    The data of the runs that the properties below are tried on. *)

(** An individual contact. *)
Definition person (name : string) (activeAt fetchedAt expiration : Stamp)
    : Attrs :=
  {| conv_id := name;
     conv_type := Private;
     uuid := Some name;
     e164 := None;
     active_at := activeAt;
     profileLastFetchedAt := fetchedAt;
     profileKeyCredential := CredentialValue "credential";
     profileKeyCredentialExpiration := expiration;
     getMembers := [] |}.

(** A group and its members. *)
Definition groupOf (name : string) (activeAt : Stamp) (members : list Ref)
    : Attrs :=
  {| conv_id := name;
     conv_type := Group;
     uuid := None;
     e164 := None;
     active_at := activeAt;
     profileLastFetchedAt := Undefined;
     profileKeyCredential := CredentialUndefined;
     profileKeyCredentialExpiration := Undefined;
     getMembers := members |}.

(** The name of the [n]-th contact of a crowd: "c", "ci", "cii", ... *)
Fixpoint tally (n : nat) : string :=
  match n with
  | O => ""
  | S n' => String.append "i" (tally n')
  end.

Definition contactName (n : nat) : string := String.append "c" (tally n).

(** The time of the runs: forty days after the epoch of the data. *)
Definition today : Z := 40 * DAY.

(** Object 0 is the local identity "me", active at 36 days, with a
    credential that expired; object [n] is a contact active at [35 days + n
    seconds], never refreshed, with a credential that is still good. *)
Definition crowd : Heap :=
  fun r =>
    match r with
    | O => person "me" (Millis (36 * DAY)) Undefined (Millis DAY)
    | S _ => person (contactName r) (Millis (35 * DAY + Z.of_nat r * SECOND))
                    Undefined (Millis (100 * DAY))
    end.

(** The crowd with the local identity in front: "me" was last active at
    30 days, before every contact. *)
Definition vanguard : Heap :=
  fun r =>
    match r with
    | O => person "me" (Millis (30 * DAY)) Undefined (Millis DAY)
    | S _ => crowd r
    end.

(** Object 0, "quiet", has no activity timestamp and a credential that
    expired; every other object is "busy", active at 35 days and never
    refreshed. *)
Definition quiet : Heap :=
  fun r =>
    match r with
    | O => person "quiet" Undefined Undefined (Millis DAY)
    | S _ => person "busy" (Millis (35 * DAY)) Undefined (Millis (100 * DAY))
    end.

(** A group and the people around it: object 1 is the group "family" with
    the members 2, 3 and 4; "old" was last active 39 days ago, "fresh" was
    refreshed an hour ago and has a credential that expired, "silent" has
    no activity at all. *)
Definition family : Heap :=
  fun r =>
    match r with
    | 0 => person "me" (Millis (39 * DAY)) Undefined (Millis (100 * DAY))
    | 1 => groupOf "family" (Millis (39 * DAY)) [2; 3; 4]
    | 2 => person "old" (Millis DAY) Undefined (Millis (100 * DAY))
    | 3 => person "fresh" (Millis (39 * DAY)) (Millis (40 * DAY - HOUR))
                  (Millis DAY)
    | _ => person "silent" Undefined Undefined (Millis (100 * DAY))
    end.

(** Worlds at the time [today], with the conversations [family] and an
    empty log: nothing stored, a pass triggered one hour ago, and a stored
    value that is no number. *)
Definition worldWith (stored : gmap string JsValue) (h : Heap) : World :=
  {| storage := stored; heap := h; clock := today; log := [] |}.

Definition freshWorld : World := worldWith ∅ family.

Definition throttledWorld : World :=
  worldWith {[ STORAGE_KEY := JsNumber (today - HOUR) ]} family.

Definition corruptWorld : World :=
  worldWith {[ STORAGE_KEY := JsString "yesterday" ]} family.

(** The conversations [family], with one more object, 5, of a kind that the
    selection does not know. *)
Definition stray : Heap :=
  fun r =>
    match r with
    | 5 => {| conv_id := "channel";
              conv_type := OtherType "channel";
              uuid := None;
              e164 := None;
              active_at := Millis (39 * DAY);
              profileLastFetchedAt := Undefined;
              profileKeyCredential := CredentialUndefined;
              profileKeyCredentialExpiration := Undefined;
              getMembers := [] |}
    | _ => family r
    end.

(** A fetch that always fails. *)
Definition failingFetch (uuid e164 : option string) : Task unit :=
  throw (OtherError "offline").

(** The collaborators of the loop for the runs: the conversations 0, 1 and
    5 of the store, and the local identity "me". *)
Definition strayConversations (w : World) : list Ref := [0; 1; 5].

Definition weAreMe (w : World) : option string := Some "me".

(** Four neighbours: object 1 is the group "block" with the one member 2;
    "recent" was refreshed an hour ago and "idle" was last active 39 days
    ago, and the credentials of both are still good. *)
Definition neighbours : Heap :=
  fun r =>
    match r with
    | 0 => person "me" (Millis (39 * DAY)) Undefined (Millis (100 * DAY))
    | 1 => groupOf "block" (Millis (39 * DAY)) [2]
    | 2 => person "recent" (Millis (39 * DAY)) (Millis (40 * DAY - HOUR))
                  (Millis (100 * DAY))
    | _ => person "idle" (Millis DAY) Undefined (Millis (100 * DAY))
    end.

(** A fetch that always succeeds, and says so in the log. *)
Definition workingFetch (uuid e164 : option string) : Task unit :=
  logAt Info Starting.

(** Collaborators of the loop that do not know the local identity. *)
Definition weAreNobody (w : World) : option string := Some "".

Definition familyConversations (w : World) : list Ref := [0; 1].

(** * Properties *)

(** ** [sortBy] *)

Lemma compareAscending_refl a : compareAscending a a = Eq.
Proof. destruct a; simpl; auto using Z.compare_refl. Qed.

Lemma compareAscending_Gt_flip a b :
  compareAscending a b = Gt → compareAscending b a = Lt.
Proof.
  destruct a, b; simpl; try congruence.
  intros Hgt. rewrite Z.compare_antisym, Hgt. reflexivity.
Qed.

Lemma compareAscending_Gt_ne a b : compareAscending a b = Gt → a ≠ b.
Proof. intros Hgt ->. rewrite compareAscending_refl in Hgt. discriminate. Qed.

Lemma compareAscending_Eq a b : compareAscending a b = Eq → a = b.
Proof.
  destruct a, b; simpl; try congruence.
  intros Heq. apply Z.compare_eq in Heq. congruence.
Qed.

Lemma notAfter_refl a : notAfter a a.
Proof. unfold notAfter. rewrite compareAscending_refl. discriminate. Qed.

Lemma notAfter_trans a b c : notAfter a b → notAfter b c → notAfter a c.
Proof.
  unfold notAfter.
  destruct a, b, c; simpl; try congruence.
  rewrite !Z.compare_gt_iff. lia.
Qed.

Lemma notAfter_Millis a b : notAfter (Millis a) (Millis b) ↔ (a ≤ b)%Z.
Proof. unfold notAfter. simpl. rewrite Z.compare_gt_iff. lia. Qed.

Lemma notAfter_Millis_l t other : notAfter other (Millis t) → ∃ u, other = Millis u.
Proof. destruct other; unfold notAfter; simpl; try congruence. eauto. Qed.

Section SortByFacts.
Context {A : Type} (iteratee : A → Stamp).

Lemma insertBy_Permutation x l : insertBy iteratee x l ≡ₚ x :: l.
Proof.
  induction l as [|y l IH]; simpl; [reflexivity|].
  destruct (compareAscending (iteratee x) (iteratee y)); try reflexivity.
  rewrite IH. apply Permutation_swap.
Qed.

Lemma sortBy_Permutation l : sortBy iteratee l ≡ₚ l.
Proof.
  induction l as [|x l IH]; simpl; [reflexivity|].
  rewrite insertBy_Permutation. by rewrite IH.
Qed.

Lemma insertBy_sorted x l :
  StronglySorted (orderedBy iteratee) l → StronglySorted (orderedBy iteratee) (insertBy iteratee x l).
Proof.
  induction 1 as [|y l Hsorted IH Hall]; simpl.
  - repeat constructor.
  - destruct (compareAscending (iteratee x) (iteratee y)) eqn:Hcmp.
    + constructor; [by constructor|].
      assert (orderedBy iteratee x y) by (unfold orderedBy, notAfter; congruence).
      constructor; [done|].
      eapply Forall_impl; [exact Hall|].
      intros z Hz. eapply notAfter_trans; eauto.
    + constructor; [by constructor|].
      assert (orderedBy iteratee x y) by (unfold orderedBy, notAfter; congruence).
      constructor; [done|].
      eapply Forall_impl; [exact Hall|].
      intros z Hz. eapply notAfter_trans; eauto.
    + constructor; [exact IH|].
      rewrite insertBy_Permutation. constructor; [|exact Hall].
      unfold orderedBy, notAfter.
      rewrite (compareAscending_Gt_flip _ _ Hcmp). discriminate.
Qed.

Lemma sortBy_sorted l : StronglySorted (orderedBy iteratee) (sortBy iteratee l).
Proof.
  induction l as [|x l IH]; simpl; [constructor|].
  by apply insertBy_sorted.
Qed.

Lemma insertBy_stable k x l :
  filter (λ y, iteratee y = k) (insertBy iteratee x l)
  = filter (λ y, iteratee y = k) (x :: l).
Proof.
  induction l as [|y l IH]; simpl; [reflexivity|].
  destruct (compareAscending (iteratee x) (iteratee y)) eqn:Hcmp;
    try reflexivity.
  apply compareAscending_Gt_ne in Hcmp.
  rewrite (filter_cons _ y), IH, !filter_cons.
  destruct (decide (iteratee x = k)), (decide (iteratee y = k));
    congruence.
Qed.

Lemma sortBy_stable k l :
  filter (λ y, iteratee y = k) (sortBy iteratee l)
  = filter (λ y, iteratee y = k) l.
Proof.
  induction l as [|x l IH]; simpl; [reflexivity|].
  rewrite insertBy_stable, !filter_cons, IH. reflexivity.
Qed.

(** In a sorted collection, an element that may not stand before another
    stands after it. *)
Lemma sorted_places (sorted : list A) a b :
  StronglySorted (orderedBy iteratee) sorted →
  a ∈ sorted → b ∈ sorted →
  ¬ notAfter (iteratee b) (iteratee a) →
  ∃ l1 l2 l3, sorted = l1 ++ a :: l2 ++ b :: l3.
Proof.
  intros Hsorted Ha Hb Hnot.
  apply list_elem_of_split in Ha as (l1 & rest & ->).
  apply elem_of_app in Hb as [Hb|Hb].
  { destruct Hnot.
    apply (StronglySorted_app_1_elem_of _ _ _ _ _ Hsorted Hb). by left. }
  apply elem_of_cons in Hb as [->|Hb].
  { destruct Hnot. apply notAfter_refl. }
  apply list_elem_of_split in Hb as (l2 & l3 & ->). eauto.
Qed.
End SortByFacts.

(** ** The store: clearing a credential touches nothing else *)

Lemma clearCredential_idemp a :
  clearCredential (clearCredential a) = clearCredential a.
Proof. reflexivity. Qed.

Lemma set_null_same c h : set_null c h c = clearCredential (h c).
Proof. unfold set_null. by rewrite Nat.eqb_refl. Qed.

Lemma set_null_other c h r : r ≠ c → set_null c h r = h r.
Proof.
  intros Hne. unfold set_null.
  destruct (Nat.eqb_spec r c); congruence.
Qed.

Lemma set_null_cases c h r :
  set_null c h r = h r ∨ (r = c ∧ set_null c h r = clearCredential (h r)).
Proof.
  unfold set_null. destruct (Nat.eqb_spec r c) as [->|]; auto.
Qed.

Lemma evolved_refl h : evolved h h.
Proof. intros r. auto. Qed.

Lemma evolved_trans h1 h2 h3 : evolved h1 h2 → evolved h2 h3 → evolved h1 h3.
Proof.
  intros H12 H23 r.
  destruct (H12 r) as [E12|E12], (H23 r) as [E23|E23];
    rewrite E23, E12; auto.
Qed.

Lemma evolved_set_null c h : evolved h (set_null c h).
Proof. intros r. destruct (set_null_cases c h r) as [|[-> ?]]; auto. Qed.

Section Frame.
Context (h h' : Heap) (Hev : evolved h h').

Lemma evolved_conv_id r : conv_id (h' r) = conv_id (h r).
Proof. destruct (Hev r) as [->| ->]; reflexivity. Qed.

Lemma evolved_conv_type r : conv_type (h' r) = conv_type (h r).
Proof. destruct (Hev r) as [->| ->]; reflexivity. Qed.

Lemma evolved_getMembers r : getMembers (h' r) = getMembers (h r).
Proof. destruct (Hev r) as [->| ->]; reflexivity. Qed.

Lemma evolved_active_at r : active_at (h' r) = active_at (h r).
Proof. destruct (Hev r) as [->| ->]; reflexivity. Qed.

Lemma evolved_isConversationActive now r :
  isConversationActive now (h' r) = isConversationActive now (h r).
Proof. destruct (Hev r) as [->| ->]; reflexivity. Qed.

Lemma evolved_hasRefreshedProfileRecently now r :
  hasRefreshedProfileRecently now (h' r)
  = hasRefreshedProfileRecently now (h r).
Proof. destruct (Hev r) as [->| ->]; reflexivity. Qed.

Lemma evolved_credential_null r :
  profileKeyCredential (h r) = CredentialNull →
  profileKeyCredentialExpiration (h r) = Null →
  profileKeyCredential (h' r) = CredentialNull ∧
  profileKeyCredentialExpiration (h' r) = Null.
Proof. destruct (Hev r) as [->| ->]; auto. Qed.
End Frame.

(** ** One resumption of the generator *)

Section GeneratorFacts.
Context `{ConversationModel}.
Variable now : Z.
Variable our : string.

Lemma nextMember_Some members seen h c rest seen' :
  nextMember now members seen h = Some (c, rest, seen') →
  ∃ skipped,
    members = skipped ++ c :: rest ∧
    Forall (passedOver now seen h) skipped ∧
    (conv_id (h c) ∉ seen) ∧
    hasRefreshedProfileRecently now (h c) = false ∧
    seen' = {[conv_id (h c)]} ∪ seen.
Proof.
  induction members as [|m members IH]; simpl; [discriminate|].
  destruct (bool_decide (conv_id (h m) ∈ seen)) eqn:Hseen;
    destruct (hasRefreshedProfileRecently now (h m)) eqn:Hrecent; simpl.
  1-3: intros Hnext; destruct (IH Hnext) as (skipped & -> & Hs & Hrest);
       exists (m :: skipped); split; [done|]; split; [|done];
       constructor; [|done]; unfold passedOver;
       try (apply bool_decide_eq_true in Hseen); auto.
  intros [= <- <- <-]. exists []. apply bool_decide_eq_false in Hseen.
  repeat split; auto.
Qed.

Lemma nextMember_None members seen h :
  nextMember now members seen h = None →
  Forall (passedOver now seen h) members.
Proof.
  induction members as [|m members IH]; simpl; [constructor|].
  destruct (bool_decide (conv_id (h m) ∈ seen)) eqn:Hseen;
    destruct (hasRefreshedProfileRecently now (h m)) eqn:Hrecent; simpl;
    try discriminate.
  all: intros Hnext; constructor; [|by apply IH]; unfold passedOver;
       try (apply bool_decide_eq_true in Hseen); auto.
Qed.

Lemma visit_Emit x seen h c members seen' h' :
  visit now our x seen h = Emit c members seen' h' →
  seen' = {[conv_id (h c)]} ∪ seen ∧
  ((conv_type (h x) = Private ∧ c = x ∧ members = [] ∧
    ((hasProfileKeyCredentialExpired now (h x) = true ∧
      (conv_id (h x) = our ∨ conv_id (h x) ∉ seen) ∧
      h' = set_null x h) ∨
     ((conv_id (h x) ∉ seen) ∧
      isConversationActive now (h x) = true ∧
      hasRefreshedProfileRecently now (h x) = false ∧
      h' = h))) ∨
   (conv_type (h x) = Group ∧ h' = h ∧
    nextMember now (getMembers (h x)) seen h = Some (c, members, seen'))).
Proof.
  unfold visit. destruct (conv_type (h x)) eqn:Htype.
  - destruct (hasProfileKeyCredentialExpired now (h x)) eqn:Hexpired; simpl.
    + destruct (String.eqb_spec (conv_id (h x)) our) as [Hour|Hour]; simpl.
      { intros [= <- <- <- <-]. split; [done|]. left. auto 10. }
      destruct (bool_decide (conv_id (h x) ∈ seen)) eqn:Hseen; simpl.
      { discriminate. }
      apply bool_decide_eq_false in Hseen.
      intros [= <- <- <- <-]. split; [done|]. left. auto 10.
    + destruct (bool_decide (conv_id (h x) ∈ seen)) eqn:Hseen; simpl;
        [discriminate|].
      apply bool_decide_eq_false in Hseen.
      destruct (isConversationActive now (h x)) eqn:Hactive; simpl;
        [|discriminate].
      destruct (hasRefreshedProfileRecently now (h x)) eqn:Hrecent; simpl;
        [discriminate|].
      intros [= <- <- <- <-]. split; [done|]. left. auto 10.
  - destruct (nextMember now (getMembers (h x)) seen h)
      as [[[m rest] seen'']|] eqn:Hnext; [|discriminate].
    intros [= <- <- <- <-].
    destruct (nextMember_Some _ _ _ _ _ _ Hnext) as (? & _ & _ & _ & _ & ->).
    split; [done|]. right. auto.
  - discriminate.
Qed.

Lemma visit_Skip x seen h :
  visit now our x seen h = Skip →
  (conv_type (h x) = Private ∧
   (hasProfileKeyCredentialExpired now (h x) = true →
    conv_id (h x) ≠ our ∧ conv_id (h x) ∈ seen)) ∨
  (conv_type (h x) = Group ∧
   nextMember now (getMembers (h x)) seen h = None).
Proof.
  unfold visit. destruct (conv_type (h x)) eqn:Htype.
  - destruct (hasProfileKeyCredentialExpired now (h x)); simpl.
    + destruct (String.eqb_spec (conv_id (h x)) our); simpl;
        [discriminate|].
      destruct (bool_decide (conv_id (h x) ∈ seen)) eqn:Hseen; simpl;
        [|discriminate].
      apply bool_decide_eq_true in Hseen. auto.
    + intros _. left. split; [done|]. discriminate.
  - destruct (nextMember now (getMembers (h x)) seen h)
      as [[[m rest] seen'']|]; [discriminate|]. auto.
  - discriminate.
Qed.

Lemma visit_Raise x seen h error :
  visit now our x seen h = Raise error →
  ∃ type, conv_type (h x) = OtherType type ∧ error = missingCaseError type.
Proof.
  unfold visit. destruct (conv_type (h x)) eqn:Htype.
  - repeat case_match; discriminate.
  - repeat case_match; discriminate.
  - intros [= <-]. eauto.
Qed.

Lemma visit_OtherType x seen h type :
  conv_type (h x) = OtherType type →
  visit now our x seen h = Raise (missingCaseError type).
Proof. unfold visit. by intros ->. Qed.

Lemma nextConversation_Yielded sorted seen h c g' h' :
  nextConversation now our sorted seen h = Yielded c g' h' →
  ∃ skipped x,
    sorted = skipped ++ x :: conversationsLeft g' ∧
    Forall (λ y, visit now our y seen h = Skip) skipped ∧
    visit now our x seen h
    = Emit c (membersLeft g') (conversationIdsSeen g') h'.
Proof.
  induction sorted as [|y sorted IH]; simpl; [discriminate|].
  destruct (visit now our y seen h) as [c0 ms seen0 h0| |] eqn:Hvisit.
  - intros [= <- <- <-]. exists [], y. simpl. auto.
  - intros Hnext. destruct (IH Hnext) as (skipped & x & -> & Hs & Hx).
    exists (y :: skipped), x. auto.
  - discriminate.
Qed.

Lemma nextConversation_Done sorted seen h :
  nextConversation now our sorted seen h = Done →
  Forall (λ y, visit now our y seen h = Skip) sorted.
Proof.
  induction sorted as [|y sorted IH]; simpl; [constructor|].
  destruct (visit now our y seen h) eqn:Hvisit; try discriminate.
  auto.
Qed.

Lemma nextConversation_Thrown sorted seen h error :
  nextConversation now our sorted seen h = Thrown error →
  ∃ skipped x rest,
    sorted = skipped ++ x :: rest ∧
    Forall (λ y, visit now our y seen h = Skip) skipped ∧
    visit now our x seen h = Raise error.
Proof.
  induction sorted as [|y sorted IH]; simpl; [discriminate|].
  destruct (visit now our y seen h) eqn:Hvisit; try discriminate.
  - intros Hnext. destruct (IH Hnext) as (skipped & x & rest & -> & Hs & Hx).
    exists (y :: skipped), x, rest. auto.
  - intros [= <-]. exists [], y, sorted. auto.
Qed.

(** How a conversation comes out of the generator: as a member of the
    group being iterated, or from the visit of the next conversation that
    is not passed over. *)
Lemma next_Yielded g h c g' h' :
  next now our g h = Yielded c g' h' →
  (∃ skipped,
     membersLeft g = skipped ++ c :: membersLeft g' ∧
     Forall (passedOver now (conversationIdsSeen g) h) skipped ∧
     (conv_id (h c) ∉ conversationIdsSeen g) ∧
     hasRefreshedProfileRecently now (h c) = false ∧
     conversationIdsSeen g' = {[conv_id (h c)]} ∪ conversationIdsSeen g ∧
     conversationsLeft g' = conversationsLeft g ∧
     h' = h) ∨
  (Forall (passedOver now (conversationIdsSeen g) h) (membersLeft g) ∧
   ∃ skipped x,
     conversationsLeft g = skipped ++ x :: conversationsLeft g' ∧
     Forall (λ y, visit now our y (conversationIdsSeen g) h = Skip) skipped ∧
     visit now our x (conversationIdsSeen g) h
     = Emit c (membersLeft g') (conversationIdsSeen g') h').
Proof.
  unfold next.
  destruct (nextMember now (membersLeft g) (conversationIdsSeen g) h)
    as [[[m rest] seen']|] eqn:Hmember.
  - intros [= <- <- <-]. left.
    destruct (nextMember_Some _ _ _ _ _ _ Hmember)
      as (skipped & ? & ? & ? & ? & ?).
    exists skipped. simpl. auto 10.
  - intros Hnext. right. split; [by apply nextMember_None|].
    by apply nextConversation_Yielded.
Qed.

Lemma next_Done g h :
  next now our g h = Done →
  Forall (passedOver now (conversationIdsSeen g) h) (membersLeft g) ∧
  Forall (λ y, visit now our y (conversationIdsSeen g) h = Skip)
         (conversationsLeft g).
Proof.
  unfold next.
  destruct (nextMember now (membersLeft g) (conversationIdsSeen g) h)
    as [[[m rest] seen']|] eqn:Hmember; [discriminate|].
  intros Hnext. split; [by apply nextMember_None|].
  by apply nextConversation_Done.
Qed.

Lemma next_Thrown g h error :
  next now our g h = Thrown error →
  ∃ skipped x rest,
    conversationsLeft g = skipped ++ x :: rest ∧
    Forall (λ y, visit now our y (conversationIdsSeen g) h = Skip) skipped ∧
    visit now our x (conversationIdsSeen g) h = Raise error.
Proof.
  unfold next.
  destruct (nextMember now (membersLeft g) (conversationIdsSeen g) h)
    as [[[m rest] seen']|] eqn:Hmember; [discriminate|].
  apply nextConversation_Thrown.
Qed.

(** Coarser views of a resumption. *)
Lemma next_evolved g h c g' h' :
  next now our g h = Yielded c g' h' → evolved h h'.
Proof.
  intros Hnext. destruct (next_Yielded _ _ _ _ _ Hnext)
    as [(? & _ & _ & _ & _ & _ & _ & ->)|(_ & ? & x & _ & _ & Hvisit)].
  { apply evolved_refl. }
  destruct (visit_Emit _ _ _ _ _ _ _ Hvisit)
    as [_ [(_ & _ & _ & [(_ & _ & ->)|(_ & _ & _ & ->)])|(_ & -> & _)]];
    auto using evolved_refl, evolved_set_null.
Qed.

Lemma next_seen g h c g' h' :
  next now our g h = Yielded c g' h' →
  conversationIdsSeen g' = {[conv_id (h c)]} ∪ conversationIdsSeen g.
Proof.
  intros Hnext. destruct (next_Yielded _ _ _ _ _ Hnext)
    as [(? & _ & _ & _ & _ & ? & _ & _)|(_ & ? & x & _ & _ & Hvisit)];
    [done|].
  by destruct (visit_Emit _ _ _ _ _ _ _ Hvisit) as [? _].
Qed.

Lemma next_conversationsLeft g h c g' h' :
  next now our g h = Yielded c g' h' →
  ∃ visited, conversationsLeft g = visited ++ conversationsLeft g'.
Proof.
  intros Hnext. destruct (next_Yielded _ _ _ _ _ Hnext)
    as [(? & _ & _ & _ & _ & _ & -> & _)|(_ & skipped & x & -> & _ & _)].
  - by exists [].
  - exists (skipped ++ [x]). by rewrite <- app_assoc.
Qed.
End GeneratorFacts.

(** ** The whole selection *)

Section SelectionFacts.
Context `{ConversationModel}.
Variable now : Z.
Variable our : string.

Lemma ours_evolved h h' conversations :
  evolved h h' → ours our h' conversations = ours our h conversations.
Proof.
  intros Hev. unfold ours. apply list_filter_iff.
  intros c. by rewrite (evolved_conv_id _ _ Hev).
Qed.

(** A conversation whose id is already in the set comes out by the
    override for the local identity, and in no other way. *)
Lemma next_Yielded_seen g h c g' h' :
  next now our g h = Yielded c g' h' →
  conv_id (h c) ∈ conversationIdsSeen g →
  conv_id (h c) = our ∧
  hasProfileKeyCredentialExpired now (h c) = true ∧
  conv_type (h c) = Private ∧
  h' = set_null c h ∧
  ∃ skipped, conversationsLeft g = skipped ++ c :: conversationsLeft g'.
Proof.
  intros Hnext Hseen. destruct (next_Yielded _ _ _ _ _ _ _ Hnext)
    as [(? & _ & _ & ? & _)|(_ & skipped & x & Hleft & _ & Hvisit)];
    [done|].
  destruct (visit_Emit _ _ _ _ _ _ _ _ _ Hvisit)
    as [_ [(Htype & -> & _ & [(? & [?|?] & ?)|(? & _)])|(_ & _ & Hm)]];
    try done.
  - eauto 10.
  - by destruct (nextMember_Some _ _ _ _ _ _ _ Hm) as (? & _ & _ & ? & _).
Qed.

Lemma takeIterable_length amount g h :
  length (emitted (takeIterable now our amount g h)) ≤ amount.
Proof.
  revert g h. induction amount as [|amount IH]; intros g h; simpl; [lia|].
  destruct (next now our g h) as [c g' h'| |]; simpl; try lia.
  specialize (IH g' h'). lia.
Qed.

Lemma takeIterable_evolved amount g h :
  evolved h (store (takeIterable now our amount g h)).
Proof.
  revert g h. induction amount as [|amount IH]; intros g h; simpl;
    [apply evolved_refl|].
  destruct (next now our g h) as [c g' h'| |] eqn:Hnext; simpl;
    try apply evolved_refl.
  eapply evolved_trans; [by eapply next_evolved|apply IH].
Qed.

Lemma takeIterable_distinct amount g h :
  our ∈ conversationIdsSeen g →
  length (ours our h (conversationsLeft g)) ≤ 1 →
  NoDup ((λ c, conv_id (h c)) <$> emitted (takeIterable now our amount g h)) ∧
  ∀ c, c ∈ emitted (takeIterable now our amount g h) →
       conv_id (h c) ∈ conversationIdsSeen g →
       conv_id (h c) = our ∧ length (ours our h (conversationsLeft g)) = 1.
Proof.
  revert g h. induction amount as [|amount IH]; intros g h Hour Hone; simpl.
  { split; [constructor|]. intros c Hc. by apply elem_of_nil in Hc. }
  destruct (next now our g h) as [c g' h'| |] eqn:Hnext; simpl.
  2,3: split; [constructor|]; intros c Hc; by apply elem_of_nil in Hc.
  pose proof (next_evolved _ _ _ _ _ _ _ Hnext) as Hev.
  pose proof (next_seen _ _ _ _ _ _ _ Hnext) as Hseen'.
  destruct (next_conversationsLeft _ _ _ _ _ _ _ Hnext) as [visited Hleft].
  assert (Hone' : length (ours our h (conversationsLeft g')) ≤ 1).
  { rewrite Hleft in Hone. unfold ours in *.
    rewrite filter_app, length_app in Hone. lia. }
  destruct (IH g' h') as [Hnodup Hrest].
  { rewrite Hseen'. by apply elem_of_union_r. }
  { by rewrite (ours_evolved _ _ _ Hev). }
  rewrite (ours_evolved _ _ _ Hev) in Hrest.
  assert (Hids : (λ c0, conv_id (h' c0)) <$> emitted (takeIterable now our amount g' h')
                 = (λ c0, conv_id (h c0)) <$> emitted (takeIterable now our amount g' h')).
  { apply list_fmap_ext. intros _ c0 _. apply (evolved_conv_id _ _ Hev). }
  rewrite Hids in Hnodup.
  split.
  - constructor; [|done].
    intros Hin. apply list_elem_of_fmap in Hin as (c' & Hid & Hc').
    destruct (Hrest c' Hc') as [Hc'our Hleft'].
    { rewrite (evolved_conv_id _ _ Hev), <- Hid, Hseen'.
      by apply elem_of_union_l, elem_of_singleton. }
    rewrite (evolved_conv_id _ _ Hev) in Hc'our.
    destruct (next_Yielded_seen _ _ _ _ _ Hnext)
      as (_ & _ & _ & _ & skipped & Hsplit).
    { rewrite Hid, Hc'our. done. }
    rewrite Hsplit in Hone. unfold ours in *.
    rewrite filter_app, filter_cons, length_app in Hone.
    destruct (decide (conv_id (h c) = our)); [simpl in Hone; lia|].
    congruence.
  - intros c0 Hc0 Hc0seen. apply elem_of_cons in Hc0 as [->|Hc0].
    + destruct (next_Yielded_seen _ _ _ _ _ Hnext Hc0seen)
        as (Hcour & _ & _ & _ & skipped & Hsplit).
      split; [done|].
      rewrite Hsplit in Hone |- *. unfold ours in *.
      rewrite filter_app, filter_cons, length_app in Hone |- *.
      destruct (decide (conv_id (h c) = our)); [simpl in *; lia|done].
    + destruct (Hrest c0 Hc0) as [Hc0our Hleft'].
      { rewrite (evolved_conv_id _ _ Hev), Hseen'. by apply elem_of_union_r. }
      rewrite (evolved_conv_id _ _ Hev) in Hc0our. split; [done|].
      rewrite Hleft in Hone |- *. unfold ours in *.
      rewrite filter_app, length_app in Hone |- *. lia.
Qed.

(** What a resumption does to the store: nothing, or it clears the
    credential of the individual it hands out, which was expired. *)
Lemma next_store g h c g' h' :
  next now our g h = Yielded c g' h' →
  h' = h ∨
  (hasProfileKeyCredentialExpired now (h c) = true ∧
   conv_type (h c) = Private ∧
   h' = set_null c h).
Proof.
  intros Hnext. destruct (next_Yielded _ _ _ _ _ _ _ Hnext)
    as [(? & _ & _ & _ & _ & _ & _ & ->)|(_ & ? & x & _ & _ & Hvisit)];
    [by left|].
  destruct (visit_Emit _ _ _ _ _ _ _ _ _ Hvisit)
    as [_ [(? & -> & _ & [(? & _ & ->)|(_ & _ & _ & ->)])|(_ & -> & _)]];
    auto.
Qed.

Lemma clearedIfExpired_evolved h0 h : clearedIfExpired now h0 h → evolved h0 h.
Proof. intros Hinv r. destruct (Hinv r) as [?|[_ ?]]; auto. Qed.

Lemma clearedIfExpired_next h0 g h c g' h' :
  clearedIfExpired now h0 h →
  next now our g h = Yielded c g' h' →
  clearedIfExpired now h0 h'.
Proof.
  intros Hinv Hnext.
  destruct (next_store _ _ _ _ _ Hnext) as [->|(Hexpired & _ & ->)];
    [done|].
  intros r. destruct (set_null_cases c h r) as [->|[-> ->]]; [apply Hinv|].
  right. destruct (Hinv c) as [Hc|[Hexpired0 Hc]]; rewrite Hc in *; auto.
Qed.

Lemma takeIterable_ours_expired h0 (listed : list Ref) amount g h :
  clearedIfExpired now h0 h →
  our ∈ conversationIdsSeen g →
  (∀ x, x ∈ conversationsLeft g → x ∈ listed) →
  ∀ c, c ∈ emitted (takeIterable now our amount g h) →
       conv_id (h0 c) = our →
       c ∈ listed ∧
       conv_type (h0 c) = Private ∧
       hasProfileKeyCredentialExpired now (h0 c) = true.
Proof.
  revert g h. induction amount as [|amount IH];
    intros g h Hinv Hour Hlisted c0; simpl.
  { intros Hc0. by apply elem_of_nil in Hc0. }
  destruct (next now our g h) as [c g' h'| |] eqn:Hnext; simpl.
  2,3: intros Hc0; by apply elem_of_nil in Hc0.
  pose proof (clearedIfExpired_evolved _ _ Hinv) as Hev.
  intros Hc0 Hid. apply elem_of_cons in Hc0 as [->|Hc0].
  - destruct (next_Yielded_seen _ _ _ _ _ Hnext)
      as (_ & Hexpired & Htype & _ & skipped & Hsplit).
    { by rewrite (evolved_conv_id _ _ Hev), Hid. }
    rewrite (evolved_conv_type _ _ Hev) in Htype.
    split; [|split; [done|]].
    + apply Hlisted. rewrite Hsplit. apply elem_of_app. right. by left.
    + destruct (Hinv c) as [Hc|[? _]]; [by rewrite Hc in Hexpired|done].
  - apply (IH g' h'); try done.
    + by eapply clearedIfExpired_next.
    + rewrite (next_seen _ _ _ _ _ _ _ Hnext). by apply elem_of_union_r.
    + intros x Hx. apply Hlisted.
      destruct (next_conversationsLeft _ _ _ _ _ _ _ Hnext) as [visited ->].
      apply elem_of_app. by right.
Qed.

Lemma takeIterable_ours_cleared amount g h :
  our ∈ conversationIdsSeen g →
  ∀ c, c ∈ emitted (takeIterable now our amount g h) →
       conv_id (h c) = our →
       profileKeyCredential (store (takeIterable now our amount g h) c)
       = CredentialNull ∧
       profileKeyCredentialExpiration
         (store (takeIterable now our amount g h) c) = Null.
Proof.
  revert g h. induction amount as [|amount IH]; intros g h Hour c0; simpl.
  { intros Hc0. by apply elem_of_nil in Hc0. }
  destruct (next now our g h) as [c g' h'| |] eqn:Hnext; simpl.
  2,3: intros Hc0; by apply elem_of_nil in Hc0.
  pose proof (next_evolved _ _ _ _ _ _ _ Hnext) as Hev.
  intros Hc0 Hid. apply elem_of_cons in Hc0 as [->|Hc0].
  - destruct (next_Yielded_seen _ _ _ _ _ Hnext)
      as (_ & _ & _ & -> & _); [by rewrite Hid|].
    apply (evolved_credential_null _ _ (takeIterable_evolved _ _ _));
      by rewrite set_null_same.
  - apply IH; try done.
    + rewrite (next_seen _ _ _ _ _ _ _ Hnext). by apply elem_of_union_r.
    + by rewrite (evolved_conv_id _ _ Hev).
Qed.

(** A scan that ends by itself, not cut short, has handed out every
    individual that carries the local identity with an expired
    credential. *)
Lemma takeIterable_reaches amount g h me :
  me ∈ conversationsLeft g →
  conv_id (h me) = our →
  conv_type (h me) = Private →
  hasProfileKeyCredentialExpired now (h me) = true →
  status (takeIterable now our amount g h) = Completed →
  length (emitted (takeIterable now our amount g h)) < amount →
  me ∈ emitted (takeIterable now our amount g h).
Proof.
  revert g h. induction amount as [|amount IH];
    intros g h Hme Hid Htype Hexpired; simpl; [lia|].
  assert (Hvisit : ∀ seen, visit now our me seen h ≠ Skip).
  { intros seen Hskip. apply visit_Skip in Hskip as [[_ Hno]|[? _]];
      [|congruence].
    by destruct (Hno Hexpired). }
  destruct (next now our g h) as [c g' h'| |] eqn:Hnext; simpl.
  - intros Hstatus Hlength.
    destruct (decide (me = c)) as [->|Hne]; [by left|].
    right. pose proof (next_evolved _ _ _ _ _ _ _ Hnext) as Hev.
    apply IH; try done; try lia.
    + destruct (next_Yielded _ _ _ _ _ _ _ Hnext)
        as [(? & _ & _ & _ & _ & _ & -> & _)|(_ & skipped & x & Hsplit & Hs & Hx)];
        [done|].
      rewrite Hsplit in Hme.
      apply elem_of_app in Hme as [Hme|Hme].
      { rewrite Forall_forall in Hs. by destruct (Hvisit _ (Hs _ Hme)). }
      apply elem_of_cons in Hme as [->|Hme]; [|done].
      destruct (visit_Emit _ _ _ _ _ _ _ _ _ Hx)
        as [_ [(_ & ? & _)|(? & _)]]; congruence.
    + by rewrite (evolved_conv_id _ _ Hev).
    + by rewrite (evolved_conv_type _ _ Hev).
    + destruct (next_store _ _ _ _ _ Hnext) as [->|(_ & _ & ->)]; [done|].
      by rewrite set_null_other.
  - intros _ _. apply next_Done in Hnext as [_ Hs].
    rewrite Forall_forall in Hs. by destruct (Hvisit _ (Hs _ Hme)).
  - discriminate.
Qed.

(** The override: an individual that carries the local identity with an
    expired credential is handed out wherever the scan comes to it. *)
Lemma visit_override me seen h :
  conv_id (h me) = our →
  conv_type (h me) = Private →
  hasProfileKeyCredentialExpired now (h me) = true →
  visit now our me seen h
  = Emit me [] ({[our]} ∪ seen) (set_null me h).
Proof.
  intros Hid Htype Hexpired. unfold visit. cbv zeta.
  by rewrite Htype, Hexpired, Hid, String.eqb_refl.
Qed.

(** The scan goes through the sorted conversations from the left: what
    stands further right has no part in what it does before. *)
Lemma nextConversation_app sorted more seen h :
  nextConversation now our (sorted ++ more) seen h
  = match nextConversation now our sorted seen h with
    | Yielded c g' h' =>
        Yielded c {| membersLeft := membersLeft g';
                     conversationsLeft := conversationsLeft g' ++ more;
                     conversationIdsSeen := conversationIdsSeen g' |} h'
    | Done => nextConversation now our more seen h
    | Thrown error => Thrown error
    end.
Proof.
  induction sorted as [|x sorted IH]; [reflexivity|].
  rewrite <- app_comm_cons. cbn [nextConversation].
  destruct (visit now our x seen h); [reflexivity|exact IH|reflexivity].
Qed.

Lemma next_app members sorted more seen h :
  next now our {| membersLeft := members;
                  conversationsLeft := sorted ++ more;
                  conversationIdsSeen := seen |} h
  = match next now our {| membersLeft := members;
                          conversationsLeft := sorted;
                          conversationIdsSeen := seen |} h with
    | Yielded c g' h' =>
        Yielded c {| membersLeft := membersLeft g';
                     conversationsLeft := conversationsLeft g' ++ more;
                     conversationIdsSeen := conversationIdsSeen g' |} h'
    | Done => nextConversation now our more seen h
    | Thrown error => Thrown error
    end.
Proof.
  unfold next. cbn [membersLeft conversationsLeft conversationIdsSeen].
  destruct (nextMember now members seen h) as [[[m rest] seen']|];
    [reflexivity|].
  apply nextConversation_app.
Qed.

(** When the scan of what sorts before an individual that carries the
    local identity with an expired credential ends by itself, not cut
    short, the scan of the whole hands that individual out. *)
Lemma takeIterable_reaches_after amount members sooner me later seen h :
  conv_id (h me) = our →
  conv_type (h me) = Private →
  hasProfileKeyCredentialExpired now (h me) = true →
  status (takeIterable now our amount
            {| membersLeft := members;
               conversationsLeft := sooner;
               conversationIdsSeen := seen |} h) = Completed →
  length (emitted (takeIterable now our amount
                     {| membersLeft := members;
                        conversationsLeft := sooner;
                        conversationIdsSeen := seen |} h)) < amount →
  me ∈ emitted (takeIterable now our amount
                  {| membersLeft := members;
                     conversationsLeft := sooner ++ me :: later;
                     conversationIdsSeen := seen |} h).
Proof.
  revert members sooner seen h.
  induction amount as [|amount IH];
    intros members sooner seen h Hid Htype Hexpired; cbn [takeIterable];
    [cbn [emitted length]; lia|].
  rewrite next_app.
  destruct (next now our {| membersLeft := members;
                            conversationsLeft := sooner;
                            conversationIdsSeen := seen |} h)
    as [c g' h'| |] eqn:Hnext; cbn [emitted status length].
  - intros Hstatus Hlength.
    destruct (decide (me = c)) as [->|Hne]; [by left|].
    right. destruct g' as [members' sooner' seen'].
    cbn [membersLeft conversationsLeft conversationIdsSeen].
    pose proof (next_evolved _ _ _ _ _ _ _ Hnext) as Hev.
    apply IH; try done; try lia.
    + by rewrite (evolved_conv_id _ _ Hev).
    + by rewrite (evolved_conv_type _ _ Hev).
    + destruct (next_store _ _ _ _ _ Hnext) as [->|(_ & _ & ->)]; [done|].
      by rewrite set_null_other.
  - intros _ _. cbn [nextConversation].
    rewrite (visit_override me seen h Hid Htype Hexpired).
    cbn [emitted]. by left.
  - discriminate.
Qed.

(** A scan that is cut short, by an error or by the bound, is what it is
    whatever stands further right. *)
Lemma takeIterable_cut_short amount members sooner more seen h :
  status (takeIterable now our amount
            {| membersLeft := members;
               conversationsLeft := sooner;
               conversationIdsSeen := seen |} h) ≠ Completed ∨
  length (emitted (takeIterable now our amount
                     {| membersLeft := members;
                        conversationsLeft := sooner;
                        conversationIdsSeen := seen |} h)) = amount →
  takeIterable now our amount
    {| membersLeft := members;
       conversationsLeft := sooner ++ more;
       conversationIdsSeen := seen |} h
  = takeIterable now our amount
      {| membersLeft := members;
         conversationsLeft := sooner;
         conversationIdsSeen := seen |} h.
Proof.
  revert members sooner seen h.
  induction amount as [|amount IH]; intros members sooner seen h;
    cbn [takeIterable]; [reflexivity|].
  rewrite next_app.
  destruct (next now our {| membersLeft := members;
                            conversationsLeft := sooner;
                            conversationIdsSeen := seen |} h)
    as [c g' h'| |] eqn:Hnext; cbn [emitted status length].
  - destruct g' as [members' sooner' seen'].
    cbn [membersLeft conversationsLeft conversationIdsSeen].
    intros Hcut. rewrite IH; [reflexivity|].
    destruct Hcut as [Hstatus|Hlength]; [by left|right; lia].
  - intros [Hstatus|Hlength]; [done|lia].
  - reflexivity.
Qed.

(** An individual that is active, was not refreshed of late and is not in
    the set is handed out, by one rule or the other. *)
Lemma visit_eligible c seen h :
  conv_type (h c) = Private →
  isConversationActive now (h c) = true →
  hasRefreshedProfileRecently now (h c) = false →
  conv_id (h c) ∉ seen →
  ∃ h', visit now our c seen h = Emit c [] ({[conv_id (h c)]} ∪ seen) h' ∧
        evolved h h'.
Proof.
  intros Htype Hactive Hrecent Hseen. unfold visit.
  rewrite Htype, Hactive, Hrecent, (bool_decide_eq_false_2 _ Hseen). simpl.
  destruct (hasProfileKeyCredentialExpired now (h c) &&
            (String.eqb (conv_id (h c)) our || true)).
  - eexists. split; [reflexivity|apply evolved_set_null].
  - eexists. split; [reflexivity|apply evolved_refl].
Qed.

Lemma takeIterable_all_eligible amount conversations seen h :
  Forall (λ c, conv_type (h c) = Private ∧
               isConversationActive now (h c) = true ∧
               hasRefreshedProfileRecently now (h c) = false ∧
               conv_id (h c) ∉ seen) conversations →
  NoDup ((λ c, conv_id (h c)) <$> conversations) →
  emitted (takeIterable now our amount
             {| membersLeft := [];
                conversationsLeft := conversations;
                conversationIdsSeen := seen |} h)
  = take amount conversations ∧
  status (takeIterable now our amount
            {| membersLeft := [];
               conversationsLeft := conversations;
               conversationIdsSeen := seen |} h) = Completed.
Proof.
  revert conversations seen h.
  induction amount as [|amount IH]; intros conversations seen h Hall Hnodup;
    [done|].
  destruct conversations as [|c rest]; [done|].
  apply Forall_cons in Hall as [(Htype & Hactive & Hrecent & Hseen) Hall].
  rewrite fmap_cons in Hnodup. apply NoDup_cons in Hnodup as [Hc Hnodup].
  destruct (visit_eligible c seen h Htype Hactive Hrecent Hseen)
    as (h' & Hvisit & Hev).
  cbn [takeIterable next membersLeft nextMember conversationsLeft
       conversationIdsSeen nextConversation].
  rewrite Hvisit. cbn [emitted status firstn].
  destruct (IH rest ({[conv_id (h c)]} ∪ seen) h') as [Hemitted Hstatus].
  - apply Forall_forall. intros x Hx.
    rewrite Forall_forall in Hall.
    destruct (Hall x Hx) as (Hxtype & Hxactive & Hxrecent & Hxseen).
    rewrite (evolved_conv_type _ _ Hev), (evolved_conv_id _ _ Hev),
      (evolved_isConversationActive _ _ Hev),
      (evolved_hasRefreshedProfileRecently _ _ Hev).
    repeat split; try done.
    rewrite not_elem_of_union, not_elem_of_singleton. split; [|done].
    intros Heq. apply Hc. rewrite <- Heq.
    by apply (list_elem_of_fmap_2 (λ c0, conv_id (h c0))).
  - erewrite list_fmap_ext; [exact Hnodup|].
    intros _ x _. apply (evolved_conv_id _ _ Hev).
  - by rewrite Hemitted, Hstatus.
Qed.

Lemma passedOver_seen seen h m :
  passedOver now seen h m →
  hasRefreshedProfileRecently now (h m) = false →
  conv_id (h m) ∈ seen.
Proof. intros [?|?] ?; [done|congruence]. Qed.

(** A group that the scan passes over has no member left to hand out. *)
Lemma visit_Skip_member x seen h m :
  visit now our x seen h = Skip →
  conv_type (h x) = Group →
  m ∈ getMembers (h x) →
  passedOver now seen h m.
Proof.
  intros Hskip Htype Hm.
  apply visit_Skip in Hskip as [[? _]|[_ Hnone]]; [congruence|].
  apply nextMember_None in Hnone. rewrite Forall_forall in Hnone. auto.
Qed.

(** Where a member still to come stands after one resumption: its id is in
    the set already, or it is the conversation handed out, or it is still
    to come. *)
Lemma next_member_progress g h c g' h' x m :
  next now our g h = Yielded c g' h' →
  m ∈ membersLeft g ∨
    (x ∈ conversationsLeft g ∧ conv_type (h x) = Group ∧
     m ∈ getMembers (h x)) →
  hasRefreshedProfileRecently now (h m) = false →
  conv_id (h m) ∈ conversationIdsSeen g ∨
  m = c ∨
  m ∈ membersLeft g' ∨
    (x ∈ conversationsLeft g' ∧ conv_type (h x) = Group ∧
     m ∈ getMembers (h x)).
Proof.
  intros Hnext Hwhere Hrecent.
  destruct (next_Yielded _ _ _ _ _ _ _ Hnext)
    as [(skipped & Hsplit & Hs & _ & _ & _ & Hleft & _)
       |(Hmembers & skipped & y & Hsplit & Hs & Hy)].
  - destruct Hwhere as [Hm|Hx].
    + rewrite Hsplit in Hm. apply elem_of_app in Hm as [Hm|Hm].
      { left. rewrite Forall_forall in Hs.
        by apply passedOver_seen; [apply Hs|]. }
      apply elem_of_cons in Hm as [->|Hm]; auto.
    + rewrite Hleft. auto.
  - destruct Hwhere as [Hm|(Hx & Htype & Hm)].
    { left. rewrite Forall_forall in Hmembers.
      by apply passedOver_seen; [apply Hmembers|]. }
    rewrite Hsplit in Hx. apply elem_of_app in Hx as [Hx|Hx].
    { left. rewrite Forall_forall in Hs.
      apply passedOver_seen; [|done].
      eapply visit_Skip_member; [by apply Hs|done..]. }
    apply elem_of_cons in Hx as [->|Hx]; [|auto 10].
    destruct (visit_Emit _ _ _ _ _ _ _ _ _ Hy)
      as [_ [(? & _)|(_ & _ & Hmember)]]; [congruence|].
    destruct (nextMember_Some _ _ _ _ _ _ _ Hmember)
      as (passed & Hmembers' & Hpassed & _).
    rewrite Hmembers' in Hm. apply elem_of_app in Hm as [Hm|Hm].
    { left. rewrite Forall_forall in Hpassed.
      by apply passedOver_seen; [apply Hpassed|]. }
    apply elem_of_cons in Hm as [->|Hm]; auto.
Qed.

(** A scan that ends by itself, not cut short, has handed out, for every
    member of a group that was not refreshed of late, a conversation with
    the id of the member, unless the id was in the set from the start. *)
Lemma takeIterable_covers_members amount g h x m :
  m ∈ membersLeft g ∨
    (x ∈ conversationsLeft g ∧ conv_type (h x) = Group ∧
     m ∈ getMembers (h x)) →
  hasRefreshedProfileRecently now (h m) = false →
  status (takeIterable now our amount g h) = Completed →
  length (emitted (takeIterable now our amount g h)) < amount →
  conv_id (h m) ∈ conversationIdsSeen g ∨
  ∃ c, c ∈ emitted (takeIterable now our amount g h) ∧
       conv_id (h c) = conv_id (h m).
Proof.
  revert g h. induction amount as [|amount IH];
    intros g h Hwhere Hrecent; simpl; [lia|].
  destruct (next now our g h) as [c g' h'| |] eqn:Hnext; simpl.
  - intros Hstatus Hlength.
    pose proof (next_evolved _ _ _ _ _ _ _ Hnext) as Hev.
    destruct (next_member_progress _ _ _ _ _ _ _ Hnext Hwhere Hrecent)
      as [Hseen|[->|Hwhere']]; [by left| |].
    { right. exists c. split; [by left|done]. }
    destruct (IH g' h') as [Hseen|(c0 & Hc0 & Hid)]; try done; try lia.
    + by rewrite (evolved_conv_type _ _ Hev), (evolved_getMembers _ _ Hev).
    + by rewrite (evolved_hasRefreshedProfileRecently _ _ Hev).
    + rewrite (evolved_conv_id _ _ Hev),
        (next_seen _ _ _ _ _ _ _ Hnext) in Hseen.
      apply elem_of_union in Hseen as [Hseen|Hseen]; [|by left].
      apply elem_of_singleton in Hseen.
      right. exists c. split; [by left|done].
    + rewrite !(evolved_conv_id _ _ Hev) in Hid.
      right. exists c0. split; [by right|done].
  - intros _ _. left. apply next_Done in Hnext as [Hmembers Hs].
    apply passedOver_seen; [|done].
    destruct Hwhere as [Hm|(Hx & Htype & Hm)].
    + rewrite Forall_forall in Hmembers. auto.
    + rewrite Forall_forall in Hs.
      eapply visit_Skip_member; [by apply Hs|done..].
  - discriminate.
Qed.

(** How a conversation that was refreshed of late can come out: as an
    individual of the list, by the override, and in no other way. *)
Lemma next_Yielded_recent g h c g' h' :
  next now our g h = Yielded c g' h' →
  hasRefreshedProfileRecently now (h c) = true →
  conv_type (h c) = Private ∧ c ∈ conversationsLeft g.
Proof.
  intros Hnext Hrecent.
  destruct (next_Yielded _ _ _ _ _ _ _ Hnext)
    as [(_ & _ & _ & _ & ? & _)|(_ & skipped & y & Hsplit & _ & Hy)];
    [congruence|].
  destruct (visit_Emit _ _ _ _ _ _ _ _ _ Hy)
    as [_ [(Htype & -> & _)|(_ & _ & Hmember)]].
  - split; [done|]. rewrite Hsplit. apply elem_of_app. right. by left.
  - destruct (nextMember_Some _ _ _ _ _ _ _ Hmember) as (_ & _ & _ & _ & ? & _).
    congruence.
Qed.

(** A conversation refreshed of late that is not an individual of the
    list is neither handed out nor touched. *)
Lemma takeIterable_recent_untouched amount g h m :
  hasRefreshedProfileRecently now (h m) = true →
  (m ∈ conversationsLeft g → conv_type (h m) ≠ Private) →
  (m ∉ emitted (takeIterable now our amount g h)) ∧
  store (takeIterable now our amount g h) m = h m.
Proof.
  revert g h. induction amount as [|amount IH];
    intros g h Hrecent Hkind; simpl.
  { split; [apply not_elem_of_nil|done]. }
  destruct (next now our g h) as [c g' h'| |] eqn:Hnext; simpl.
  2,3: split; [apply not_elem_of_nil|done].
  assert (Hne : m ≠ c).
  { intros ->. destruct (next_Yielded_recent _ _ _ _ _ Hnext Hrecent).
    by apply Hkind. }
  assert (Hsame : h' m = h m).
  { destruct (next_store _ _ _ _ _ Hnext) as [->|(_ & _ & ->)]; [done|].
    by apply set_null_other. }
  destruct (IH g' h') as [Hout Hstore].
  - by rewrite Hsame.
  - rewrite Hsame. intros Hm. apply Hkind.
    destruct (next_conversationsLeft _ _ _ _ _ _ _ Hnext) as [visited ->].
    apply elem_of_app. by right.
  - split; [|by rewrite Hstore].
    rewrite not_elem_of_cons. done.
Qed.

(** A scan that is not cut short throws at a conversation of a kind that
    nobody handles. *)
Lemma takeIterable_raises amount g h c kind :
  c ∈ conversationsLeft g →
  conv_type (h c) = OtherType kind →
  length (emitted (takeIterable now our amount g h)) < amount →
  ∃ kind', status (takeIterable now our amount g h)
           = Raised (missingCaseError kind').
Proof.
  revert g h. induction amount as [|amount IH];
    intros g h Hc Hkind; simpl; [lia|].
  assert (Hvisit : ∀ seen, visit now our c seen h
                           = Raise (missingCaseError kind))
    by (intros seen; by apply visit_OtherType).
  destruct (next now our g h) as [c0 g' h'| |error] eqn:Hnext; simpl.
  - intros Hlength.
    pose proof (next_evolved _ _ _ _ _ _ _ Hnext) as Hev.
    apply IH; [|by rewrite (evolved_conv_type _ _ Hev)|lia].
    destruct (next_Yielded _ _ _ _ _ _ _ Hnext)
      as [(_ & _ & _ & _ & _ & _ & -> & _)
         |(_ & skipped & x & Hsplit & Hs & Hx)]; [done|].
    rewrite Hsplit in Hc. apply elem_of_app in Hc as [Hc|Hc].
    { rewrite Forall_forall in Hs. specialize (Hs _ Hc). congruence. }
    apply elem_of_cons in Hc as [->|Hc]; [congruence|done].
  - intros _. apply next_Done in Hnext as [_ Hs].
    rewrite Forall_forall in Hs. specialize (Hs _ Hc). congruence.
  - intros _. apply next_Thrown in Hnext as (_ & x & _ & _ & _ & Hx).
    apply visit_Raise in Hx as (kind' & _ & ->). eauto.
Qed.

(** Visiting a group is resuming the loop over its members. *)
Lemma next_enter_group x rest seen h :
  conv_type (h x) = Group →
  next now our {| membersLeft := [];
                  conversationsLeft := x :: rest;
                  conversationIdsSeen := seen |} h
  = next now our {| membersLeft := getMembers (h x);
                    conversationsLeft := rest;
                    conversationIdsSeen := seen |} h.
Proof.
  intros Htype. unfold next, visit. simpl. unfold visit. rewrite Htype.
  by destruct (nextMember now (getMembers (h x)) seen h) as [[[? ?] ?]|].
Qed.

Lemma next_member_emitted m members rest seen h :
  conv_id (h m) ∉ seen →
  hasRefreshedProfileRecently now (h m) = false →
  next now our {| membersLeft := m :: members;
                  conversationsLeft := rest;
                  conversationIdsSeen := seen |} h
  = Yielded m {| membersLeft := members;
                 conversationsLeft := rest;
                 conversationIdsSeen := {[conv_id (h m)]} ∪ seen |} h.
Proof.
  intros Hseen Hrecent. unfold next. simpl.
  by rewrite (bool_decide_eq_false_2 _ Hseen), Hrecent.
Qed.

Lemma next_member_passed_over m members rest seen h :
  passedOver now seen h m →
  next now our {| membersLeft := m :: members;
                  conversationsLeft := rest;
                  conversationIdsSeen := seen |} h
  = next now our {| membersLeft := members;
                    conversationsLeft := rest;
                    conversationIdsSeen := seen |} h.
Proof.
  intros Hpassed. unfold next. simpl.
  destruct Hpassed as [Hseen|Hrecent].
  - by rewrite (bool_decide_eq_true_2 _ Hseen).
  - rewrite Hrecent. by rewrite andb_false_r.
Qed.

(** The same, for the selection from the contacts. *)
Lemma selection_covers_members conversations h x m :
  x ∈ conversations →
  conv_type (h x) = Group →
  m ∈ getMembers (h x) →
  hasRefreshedProfileRecently now (h m) = false →
  status (getConversationsToRefresh now our conversations h) = Completed →
  length (emitted (getConversationsToRefresh now our conversations h))
  < MAX_CONVERSATIONS_TO_REFRESH →
  conv_id (h m) = our ∨
  ∃ c, c ∈ emitted (getConversationsToRefresh now our conversations h) ∧
       conv_id (h c) = conv_id (h m).
Proof.
  unfold getConversationsToRefresh.
  intros Hx Htype Hm Hrecent Hstatus Hlength.
  assert (Hin : x ∈ conversationsLeft
                       (getFilteredConversations our conversations h)).
  { unfold getFilteredConversations, conversationsLeft.
    by rewrite sortBy_Permutation. }
  destruct (takeIterable_covers_members MAX_CONVERSATIONS_TO_REFRESH
              (getFilteredConversations our conversations h) h x m
              (or_intror (conj Hin (conj Htype Hm)))
              Hrecent Hstatus Hlength) as [Hseen|Hc]; [|by right].
  left. unfold getFilteredConversations, conversationIdsSeen in Hseen.
  by apply elem_of_singleton in Hseen.
Qed.

Lemma selection_length conversations h :
  length (emitted (getConversationsToRefresh now our conversations h))
  ≤ MAX_CONVERSATIONS_TO_REFRESH.
Proof. apply takeIterable_length. Qed.

Lemma selection_distinct conversations h :
  length (ours our h conversations) ≤ 1 →
  NoDup ((λ c, conv_id (h c))
           <$> emitted (getConversationsToRefresh now our conversations h)).
Proof.
  intros Hone. unfold getConversationsToRefresh.
  apply takeIterable_distinct.
  - unfold getFilteredConversations, conversationIdsSeen.
    by apply elem_of_singleton.
  - unfold getFilteredConversations, conversationsLeft, ours in *.
    by rewrite sortBy_Permutation.
Qed.

Lemma selection_raises conversations h c kind :
  c ∈ conversations →
  conv_type (h c) = OtherType kind →
  length (emitted (getConversationsToRefresh now our conversations h))
  < MAX_CONVERSATIONS_TO_REFRESH →
  ∃ kind', status (getConversationsToRefresh now our conversations h)
           = Raised (missingCaseError kind').
Proof.
  unfold getConversationsToRefresh. intros Hc.
  apply takeIterable_raises.
  unfold getFilteredConversations, conversationsLeft.
  by rewrite sortBy_Permutation.
Qed.

Lemma selection_recent_untouched conversations h m :
  hasRefreshedProfileRecently now (h m) = true →
  (m ∈ conversations → conv_type (h m) ≠ Private) →
  (m ∉ emitted (getConversationsToRefresh now our conversations h)) ∧
  store (getConversationsToRefresh now our conversations h) m = h m.
Proof.
  unfold getConversationsToRefresh. intros Hrecent Hkind.
  apply takeIterable_recent_untouched; [done|].
  unfold getFilteredConversations, conversationsLeft.
  by rewrite sortBy_Permutation.
Qed.

Lemma selection_ours conversations h c :
  c ∈ emitted (getConversationsToRefresh now our conversations h) →
  conv_id (h c) = our →
  c ∈ conversations ∧
  conv_type (h c) = Private ∧
  hasProfileKeyCredentialExpired now (h c) = true ∧
  profileKeyCredential
    (store (getConversationsToRefresh now our conversations h) c)
  = CredentialNull ∧
  profileKeyCredentialExpiration
    (store (getConversationsToRefresh now our conversations h) c) = Null.
Proof.
  unfold getConversationsToRefresh. intros Hc Hid.
  assert (Hseen : our ∈ conversationIdsSeen
                          (getFilteredConversations our conversations h))
    by (simpl; by apply elem_of_singleton).
  assert (Hlisted : ∀ x, x ∈ conversationsLeft
                               (getFilteredConversations our conversations h) →
                         x ∈ conversations).
  { intros x. unfold getFilteredConversations, conversationsLeft.
    by rewrite sortBy_Permutation. }
  pose proof (takeIterable_ours_expired h conversations _ _ h
                (λ r, or_introl eq_refl) Hseen Hlisted c Hc Hid)
    as (Hin & Htype & Hexpired).
  pose proof (takeIterable_ours_cleared _ _ h Hseen c Hc Hid)
    as [Hcredential Hexpiration].
  auto.
Qed.

Lemma selection_reaches conversations h me :
  me ∈ conversations →
  conv_id (h me) = our →
  conv_type (h me) = Private →
  hasProfileKeyCredentialExpired now (h me) = true →
  status (getConversationsToRefresh now our conversations h) = Completed →
  length (emitted (getConversationsToRefresh now our conversations h))
  < MAX_CONVERSATIONS_TO_REFRESH →
  me ∈ emitted (getConversationsToRefresh now our conversations h).
Proof.
  unfold getConversationsToRefresh. intros Hme.
  apply takeIterable_reaches.
  unfold getFilteredConversations, conversationsLeft.
  by rewrite sortBy_Permutation.
Qed.

Lemma selection_reaches_after conversations h sooner me later :
  sortBy (λ c, active_at (h c)) conversations = sooner ++ me :: later →
  conv_id (h me) = our →
  conv_type (h me) = Private →
  hasProfileKeyCredentialExpired now (h me) = true →
  status (takeIterable now our MAX_CONVERSATIONS_TO_REFRESH
            {| membersLeft := [];
               conversationsLeft := sooner;
               conversationIdsSeen := {[our]} |} h) = Completed →
  length (emitted (takeIterable now our MAX_CONVERSATIONS_TO_REFRESH
                     {| membersLeft := [];
                        conversationsLeft := sooner;
                        conversationIdsSeen := {[our]} |} h))
  < MAX_CONVERSATIONS_TO_REFRESH →
  me ∈ emitted (getConversationsToRefresh now our conversations h).
Proof.
  unfold getConversationsToRefresh, getFilteredConversations. intros ->.
  apply takeIterable_reaches_after.
Qed.

Lemma selection_cut_short conversations h sooner me later :
  sortBy (λ c, active_at (h c)) conversations = sooner ++ me :: later →
  conv_id (h me) = our →
  me ∉ sooner →
  status (takeIterable now our MAX_CONVERSATIONS_TO_REFRESH
            {| membersLeft := [];
               conversationsLeft := sooner;
               conversationIdsSeen := {[our]} |} h) ≠ Completed ∨
  length (emitted (takeIterable now our MAX_CONVERSATIONS_TO_REFRESH
                     {| membersLeft := [];
                        conversationsLeft := sooner;
                        conversationIdsSeen := {[our]} |} h))
  = MAX_CONVERSATIONS_TO_REFRESH →
  me ∉ emitted (getConversationsToRefresh now our conversations h).
Proof.
  unfold getConversationsToRefresh, getFilteredConversations.
  intros -> Hid Hme Hcut.
  rewrite (takeIterable_cut_short _ _ _ _ _ _ Hcut).
  intros Hin.
  assert (Hseen : our ∈ ({[our]} : gset string))
    by (by apply elem_of_singleton).
  destruct (takeIterable_ours_expired h sooner MAX_CONVERSATIONS_TO_REFRESH
              {| membersLeft := [];
                 conversationsLeft := sooner;
                 conversationIdsSeen := {[our]} |} h
              (λ r, or_introl eq_refl) Hseen (λ x Hx, Hx) me Hin Hid)
    as (Hlisted & _).
  by apply Hme.
Qed.

Lemma selection_all_eligible conversations h :
  Forall (λ c, conv_type (h c) = Private ∧
               conv_id (h c) ≠ our ∧
               isConversationActive now (h c) = true ∧
               hasRefreshedProfileRecently now (h c) = false) conversations →
  NoDup ((λ c, conv_id (h c)) <$> conversations) →
  emitted (getConversationsToRefresh now our conversations h)
  = take MAX_CONVERSATIONS_TO_REFRESH
         (sortBy (λ c, active_at (h c)) conversations) ∧
  status (getConversationsToRefresh now our conversations h) = Completed.
Proof.
  intros Hall Hnodup.
  unfold getConversationsToRefresh, getFilteredConversations.
  apply takeIterable_all_eligible.
  - rewrite sortBy_Permutation. eapply Forall_impl; [exact Hall|].
    intros c (? & ? & ? & ?). repeat split; try done.
    by rewrite not_elem_of_singleton.
  - by rewrite sortBy_Permutation.
Qed.
End SelectionFacts.

Lemma isConversationActive_Millis now a :
  isConversationActive now a = true → ∃ t, active_at a = Millis t.
Proof.
  unfold isConversationActive. destruct (active_at a); simpl; try done.
  eauto.
Qed.

Lemma NoDup_fmap_filter_length {A B} `{EqDecision B} (f : A → B) k l :
  NoDup (f <$> l) → length (filter (λ x, f x = k) l) ≤ 1.
Proof.
  induction l as [|x l IH]; [simpl; lia|].
  rewrite fmap_cons, NoDup_cons, filter_cons. intros [Hx Hl].
  destruct (decide (f x = k)) as [Hk|]; [|by apply IH].
  destruct (filter (λ x, f x = k) l) as [|y rest] eqn:Hf; [simpl; lia|].
  exfalso. assert (Hy : y ∈ filter (λ x, f x = k) l) by (rewrite Hf; left).
  apply list_elem_of_filter in Hy as [Hyk Hy]. apply Hx.
  rewrite Hk, <- Hyk. by apply list_elem_of_fmap_2.
Qed.

(** ** The selection: what the specification says of it *)

Section SelectionTheorems.
Context `{ConversationModel}.
Variable now : Z.
Variable our : string.

(** C1. Whatever the contacts and the local identity, as long as the
    contacts list the local identity at most once, the selection has at
    most 50 conversations and no two of them carry the same id. The
    bound and the distinctness hold for what was handed out before an
    error as well. *)
Theorem selection_bounded_and_distinct (conversations : list Ref) (h : Heap) :
  length (filter (λ c, conv_id (h c) = our) conversations) ≤ 1 →
  let selection := getConversationsToRefresh now our conversations h in
  length (emitted selection) ≤ 50 ∧
  NoDup ((λ c, conv_id (h c)) <$> emitted selection).
Proof.
  intros Hone selection. split.
  - exact (selection_length now our conversations h).
  - exact (selection_distinct now our conversations h Hone).
Qed.

(** C3, as amended. The local identity is handed out only as an individual
    contact of the input whose credential is expired, and its credential
    fields are null in the store the selection leaves; it is handed out at
    most once when the contacts list it at most once; and an individual
    contact that carries the local identity with an expired credential is
    handed out whenever the scan comes to it, that is, whenever the scan of
    the contacts that sort before it ends by itself with fewer than 50
    conversations handed out. When that scan throws, or hands out 50
    conversations, the contact is not handed out. So the contact is handed
    out, in particular, whenever the whole selection ends by itself with
    fewer than 50 conversations. *)
Theorem local_identity_override (conversations : list Ref) (h : Heap) :
  let selection := getConversationsToRefresh now our conversations h in
  (∀ c, c ∈ emitted selection → conv_id (h c) = our →
        c ∈ conversations ∧
        conv_type (h c) = Private ∧
        hasProfileKeyCredentialExpired now (h c) = true ∧
        profileKeyCredential (store selection c) = CredentialNull ∧
        profileKeyCredentialExpiration (store selection c) = Null) ∧
  (length (filter (λ c, conv_id (h c) = our) conversations) ≤ 1 →
   length (filter (λ c, conv_id (h c) = our) (emitted selection)) ≤ 1) ∧
  (∀ sooner me later,
     sortBy (λ c, active_at (h c)) conversations = sooner ++ me :: later →
     conv_id (h me) = our →
     let before :=
       takeIterable now our MAX_CONVERSATIONS_TO_REFRESH
                    {| membersLeft := [];
                       conversationsLeft := sooner;
                       conversationIdsSeen := {[our]} |} h in
     (conv_type (h me) = Private →
      hasProfileKeyCredentialExpired now (h me) = true →
      status before = Completed →
      length (emitted before) < 50 →
      me ∈ emitted selection) ∧
     (me ∉ sooner →
      status before ≠ Completed ∨ length (emitted before) = 50 →
      me ∉ emitted selection)) ∧
  (∀ me, me ∈ conversations →
         conv_id (h me) = our →
         conv_type (h me) = Private →
         hasProfileKeyCredentialExpired now (h me) = true →
         status selection = Completed →
         length (emitted selection) < 50 →
         me ∈ emitted selection).
Proof.
  intros selection. split; [|split; [|split]].
  - exact (selection_ours now our conversations h).
  - intros Hone. apply NoDup_fmap_filter_length.
    exact (selection_distinct now our conversations h Hone).
  - intros sooner me later Hsorted Hid. split.
    + intros Htype Hexpired.
      exact (selection_reaches_after now our conversations h sooner me later
               Hsorted Hid Htype Hexpired).
    + exact (selection_cut_short now our conversations h sooner me later
               Hsorted Hid).
  - exact (selection_reaches now our conversations h).
Qed.

(** C4. Sixty individual contacts, none of them the local identity, with
    ids and activity timestamps that are pairwise distinct, all active
    within 30 days and none refreshed within 24 hours: the selection ends
    by itself with exactly 50 of them, and each of the 50 has an activity
    timestamp smaller than that of each of the 10 left out. *)
Theorem oldest_fifty_of_sixty (conversations : list Ref) (h : Heap) :
  length conversations = 60 →
  Forall (λ c, conv_type (h c) = Private ∧
               conv_id (h c) ≠ our ∧
               isConversationActive now (h c) = true ∧
               hasRefreshedProfileRecently now (h c) = false) conversations →
  NoDup ((λ c, conv_id (h c)) <$> conversations) →
  NoDup ((λ c, active_at (h c)) <$> conversations) →
  let selection := getConversationsToRefresh now our conversations h in
  status selection = Completed ∧
  length (emitted selection) = 50 ∧
  NoDup (emitted selection) ∧
  (∀ c, c ∈ emitted selection → c ∈ conversations) ∧
  (∀ c c', c ∈ emitted selection →
           c' ∈ conversations →
           c' ∉ emitted selection →
           ∃ t t', active_at (h c) = Millis t ∧
                   active_at (h c') = Millis t' ∧
                   (t < t')%Z).
Proof.
  intros Hlength Hall Hids Hstamps selection.
  destruct (selection_all_eligible now our conversations h Hall Hids)
    as [Hemitted Hstatus].
  fold selection in Hemitted, Hstatus.
  change MAX_CONVERSATIONS_TO_REFRESH with 50 in Hemitted.
  set (sorted := sortBy (λ c, active_at (h c)) conversations) in *.
  assert (Hperm : sorted ≡ₚ conversations) by apply sortBy_Permutation.
  assert (Hsorted : StronglySorted (orderedBy (λ c, active_at (h c))) sorted)
    by apply sortBy_sorted.
  rewrite <- (take_drop 50 sorted) in Hsorted.
  assert (Hdistinct : NoDup ((λ c, active_at (h c)) <$> sorted))
    by (by rewrite Hperm).
  rewrite <- (take_drop 50 sorted), fmap_app, NoDup_app in Hdistinct.
  destruct Hdistinct as (_ & Hapart & _).
  rewrite Hemitted. split; [done|]. split; [|split; [|split]].
  - rewrite length_take, Hperm, Hlength. reflexivity.
  - apply (sublist_NoDup _ sorted); [|apply sublist_take].
    rewrite Hperm. by eapply NoDup_fmap_1.
  - intros c Hc. rewrite <- Hperm.
    eapply elem_of_sublist; [exact Hc|].
    apply sublist_take.
  - intros c c' Hc Hc' Hout.
    assert (Hdrop : c' ∈ drop 50 sorted).
    { rewrite <- Hperm, <- (take_drop 50 sorted) in Hc'.
      apply elem_of_app in Hc' as [?|?]; done. }
    pose proof (StronglySorted_app_1_elem_of _ _ _ _ _ Hsorted Hc Hdrop)
      as Hordered.
    rewrite Forall_forall in Hall.
    assert (Hcin : c ∈ conversations).
    { rewrite <- Hperm. eapply elem_of_sublist; [exact Hc|].
      apply sublist_take. }
    destruct (Hall c Hcin) as (_ & _ & Hactive & _).
    destruct (Hall c' Hc') as (_ & _ & Hactive' & _).
    apply isConversationActive_Millis in Hactive as [t Ht].
    apply isConversationActive_Millis in Hactive' as [t' Ht'].
    exists t, t'. split; [done|]. split; [done|].
    unfold orderedBy in Hordered. rewrite Ht, Ht' in Hordered.
    assert (Hle : (t ≤ t')%Z) by (by apply notAfter_Millis).
    enough (t ≠ t') by lia. intros ->.
    apply (Hapart (Millis t')).
    + rewrite <- Ht. by apply (list_elem_of_fmap_2 (λ c0, active_at (h c0))).
    + rewrite <- Ht'. by apply (list_elem_of_fmap_2 (λ c0, active_at (h c0))).
Qed.

(** C5, as amended. The conversations are scanned in the order that
    [sortBy] leaves: a rearrangement of the input, ascending in the
    activity timestamp, in which a conversation without a number for its
    activity timestamp comes after every conversation that has one (so it
    sorts as the newest, [null] before [undefined]), and in which the
    conversations with one and the same timestamp keep the order they had
    in the input. *)
Theorem scan_order (conversations : list Ref) (h : Heap) :
  let sorted :=
    conversationsLeft (getFilteredConversations our conversations h) in
  sorted ≡ₚ conversations ∧
  StronglySorted (orderedBy (λ c, active_at (h c))) sorted ∧
  (∀ a b t u, a ∈ conversations → b ∈ conversations →
     active_at (h a) = Millis t → active_at (h b) = Millis u → (t < u)%Z →
     ∃ l1 l2 l3, sorted = l1 ++ a :: l2 ++ b :: l3) ∧
  (∀ a b t, a ∈ conversations → b ∈ conversations →
     active_at (h a) = Millis t →
     isNormalNumber (active_at (h b)) = false →
     ∃ l1 l2 l3, sorted = l1 ++ a :: l2 ++ b :: l3) ∧
  (∀ a b, a ∈ conversations → b ∈ conversations →
     active_at (h a) = Null → active_at (h b) = Undefined →
     ∃ l1 l2 l3, sorted = l1 ++ a :: l2 ++ b :: l3) ∧
  (∀ stamp,
     filter (λ c, active_at (h c) = stamp) sorted
     = filter (λ c, active_at (h c) = stamp) conversations).
Proof.
  intros sorted. unfold sorted, getFilteredConversations, conversationsLeft.
  pose proof (sortBy_Permutation (λ c, active_at (h c)) conversations) as Hperm.
  pose proof (sortBy_sorted (λ c, active_at (h c)) conversations) as Hsorted.
  split; [done|]. split; [done|]. repeat split.
  - intros a b t u Ha Hb Hta Hub Hlt.
    apply (sorted_places (λ c, active_at (h c))); try done;
      try (by rewrite Hperm).
    rewrite Hta, Hub, notAfter_Millis. lia.
  - intros a b t Ha Hb Hta Hnone.
    apply (sorted_places (λ c, active_at (h c))); try done;
      try (by rewrite Hperm).
    rewrite Hta. unfold notAfter.
    destruct (active_at (h b)); simpl in *; congruence.
  - intros a b Ha Hb Hnull Hundefined.
    apply (sorted_places (λ c, active_at (h c))); try done;
      try (by rewrite Hperm).
    rewrite Hnull, Hundefined. unfold notAfter. simpl. congruence.
  - intros stamp. apply sortBy_stable.
Qed.

(** C6. The scan of a group is the loop over its members, and the turn of
    a member goes by two tests only: the member is handed out when its id
    is not in the set and it was not refreshed within 24 hours, and it is
    passed over otherwise. Its activity is not looked at: when the
    selection ends by itself with fewer than 50 conversations, every member
    of a group of the input that was not refreshed within 24 hours has
    had a conversation of its id handed out (unless it is the local
    identity), however old or absent its last activity. *)
Theorem group_members_rule (conversations : list Ref) (h : Heap) :
  (∀ x rest seen,
     conv_type (h x) = Group →
     next now our {| membersLeft := [];
                     conversationsLeft := x :: rest;
                     conversationIdsSeen := seen |} h
     = next now our {| membersLeft := getMembers (h x);
                       conversationsLeft := rest;
                       conversationIdsSeen := seen |} h) ∧
  (∀ m members rest seen,
     conv_id (h m) ∉ seen →
     hasRefreshedProfileRecently now (h m) = false →
     next now our {| membersLeft := m :: members;
                     conversationsLeft := rest;
                     conversationIdsSeen := seen |} h
     = Yielded m {| membersLeft := members;
                    conversationsLeft := rest;
                    conversationIdsSeen := {[conv_id (h m)]} ∪ seen |} h) ∧
  (∀ m members rest seen,
     conv_id (h m) ∈ seen ∨ hasRefreshedProfileRecently now (h m) = true →
     next now our {| membersLeft := m :: members;
                     conversationsLeft := rest;
                     conversationIdsSeen := seen |} h
     = next now our {| membersLeft := members;
                       conversationsLeft := rest;
                       conversationIdsSeen := seen |} h) ∧
  (let selection := getConversationsToRefresh now our conversations h in
   ∀ x m,
     x ∈ conversations →
     conv_type (h x) = Group →
     m ∈ getMembers (h x) →
     hasRefreshedProfileRecently now (h m) = false →
     status selection = Completed →
     length (emitted selection) < 50 →
     conv_id (h m) = our ∨
     ∃ c, c ∈ emitted selection ∧ conv_id (h c) = conv_id (h m)).
Proof.
  split; [|split; [|split]].
  - intros x rest seen. apply next_enter_group.
  - intros m members rest seen. apply next_member_emitted.
  - intros m members rest seen. apply next_member_passed_over.
  - intros selection x m.
    exact (selection_covers_members now our conversations h x m).
Qed.

End SelectionTheorems.

(** C1 on a crowd of sixty contacts and the local identity. *)
Lemma selection_bounded_and_distinct_witness :
  length (filter (λ c, conv_id (crowd c) = "me") (seq 0 61)) ≤ 1 ∧
  length (emitted (@getConversationsToRefresh expiryHasPassed today "me"
                     (seq 0 61) crowd)) ≤ 50 ∧
  NoDup ((λ c, conv_id (crowd c))
           <$> emitted (@getConversationsToRefresh expiryHasPassed today "me"
                          (seq 0 61) crowd)).
Proof.
  assert (Hone : length (filter (λ c, conv_id (crowd c) = "me") (seq 0 61)) ≤ 1)
    by (vm_compute; lia).
  split; [exact Hone|].
  exact (@selection_bounded_and_distinct expiryHasPassed today "me"
           (seq 0 61) crowd Hone).
Defined.

(** C3, as the specification states it, fails: the local identity "me" has
    an expired credential and is an individual contact of the input, yet
    the fifty contacts that sort before it fill the selection, and "me" is
    not handed out. *)
Lemma local_identity_override_counterexample :
  conv_id (crowd 0) = "me" ∧
  conv_type (crowd 0) = Private ∧
  @hasProfileKeyCredentialExpired expiryHasPassed today (crowd 0) = true ∧
  emitted (@getConversationsToRefresh expiryHasPassed today "me"
             (seq 0 51) crowd) = seq 1 50 ∧
  length (filter (λ c, conv_id (crowd c) = "me")
            (emitted (@getConversationsToRefresh expiryHasPassed today "me"
                        (seq 0 51) crowd))) = 0.
Proof. vm_compute. repeat split. Qed.

(** C3, as amended, on sixty contacts and the local identity, which sorts
    before them all: the scan comes to it first and hands it out, with its
    credential cleared, before the contacts that fill the selection. On
    the crowd, where fifty contacts sort before it, it stays out. *)
Lemma local_identity_override_witness :
  0 ∈ emitted (@getConversationsToRefresh expiryHasPassed today "me"
                 (seq 0 61) vanguard) ∧
  length (emitted (@getConversationsToRefresh expiryHasPassed today "me"
                     (seq 0 61) vanguard)) = 50 ∧
  profileKeyCredential
    (store (@getConversationsToRefresh expiryHasPassed today "me"
              (seq 0 61) vanguard) 0) = CredentialNull ∧
  profileKeyCredentialExpiration
    (store (@getConversationsToRefresh expiryHasPassed today "me"
              (seq 0 61) vanguard) 0) = Null ∧
  length (filter (λ c, conv_id (vanguard c) = "me")
            (emitted (@getConversationsToRefresh expiryHasPassed today "me"
                        (seq 0 61) vanguard))) ≤ 1 ∧
  (0 ∉ emitted (@getConversationsToRefresh expiryHasPassed today "me"
                  (seq 0 51) crowd)).
Proof.
  destruct (@local_identity_override expiryHasPassed today "me"
              (seq 0 61) vanguard) as (Honly & Honce & Hreached & _).
  assert (Hme : 0 ∈ emitted (@getConversationsToRefresh expiryHasPassed
                               today "me" (seq 0 61) vanguard)).
  { apply (Hreached [] 0 (seq 1 60)); try (vm_compute; reflexivity).
    vm_compute. lia. }
  assert (Hcut : 0 ∉ emitted (@getConversationsToRefresh expiryHasPassed
                                today "me" (seq 0 51) crowd)).
  { destruct (@local_identity_override expiryHasPassed today "me"
                (seq 0 51) crowd) as (_ & _ & Hboth & _).
    apply (Hboth (seq 1 50) 0 []); try (vm_compute; reflexivity).
    - by_evaluation.
    - right. vm_compute. reflexivity. }
  destruct (Honly 0 Hme eq_refl) as (_ & _ & _ & Hcredential & Hexpiration).
  split; [exact Hme|]. split; [vm_compute; reflexivity|].
  split; [exact Hcredential|]. split; [exact Hexpiration|].
  split; [|exact Hcut].
  apply Honce. vm_compute. lia.
Defined.

(** C4 on the sixty contacts of the crowd: contact 50 is in, contact 51 is
    out. *)
Lemma oldest_fifty_of_sixty_witness :
  status (@getConversationsToRefresh expiryHasPassed today "me"
            (seq 1 60) crowd) = Completed ∧
  length (emitted (@getConversationsToRefresh expiryHasPassed today "me"
                     (seq 1 60) crowd)) = 50 ∧
  ∃ t t', active_at (crowd 50) = Millis t ∧
          active_at (crowd 51) = Millis t' ∧
          (t < t')%Z.
Proof.
  destruct (@oldest_fifty_of_sixty expiryHasPassed today "me"
              (seq 1 60) crowd) as (Hstatus & Hlength & _ & _ & Holdest).
  - reflexivity.
  - by_evaluation.
  - by_evaluation.
  - by_evaluation.
  - split; [exact Hstatus|]. split; [exact Hlength|].
    apply Holdest; by_evaluation.
Defined.

(** C5, as the specification states it, fails: "quiet" has no activity
    timestamp and "busy" has one, yet "busy" is scanned first, and handed
    out first. *)
Lemma scan_order_counterexample :
  active_at (quiet 0) = Undefined ∧
  active_at (quiet 1) = Millis (35 * DAY) ∧
  conversationsLeft (getFilteredConversations "me" [0; 1] quiet) = [1; 0] ∧
  emitted (@getConversationsToRefresh expiryHasPassed today "me" [0; 1] quiet)
  = [1; 0].
Proof. vm_compute. repeat split. Qed.

(** C5, as amended, on the same two conversations. *)
Lemma scan_order_witness :
  ∃ l1 l2 l3,
    conversationsLeft (getFilteredConversations "me" [0; 1] quiet)
    = l1 ++ 1 :: l2 ++ 0 :: l3.
Proof.
  destruct (scan_order "me" [0; 1] quiet) as (_ & _ & _ & Hlast & _).
  apply (Hlast 1 0 (35 * DAY)%Z).
  - by_evaluation.
  - by_evaluation.
  - reflexivity.
  - reflexivity.
Defined.

(** C6 on the group "family": "old", inactive for 39 days, has a
    conversation of its id handed out. *)
Lemma group_members_rule_witness :
  isConversationActive today (family 2) = false ∧
  (conv_id (family 2) = "me" ∨
   ∃ c, c ∈ emitted (@getConversationsToRefresh expiryHasPassed today "me"
                       [0; 1] family) ∧
        conv_id (family c) = conv_id (family 2)).
Proof.
  split; [reflexivity|].
  destruct (@group_members_rule expiryHasPassed today "me" [0; 1] family)
    as (_ & _ & _ & Hall).
  apply (Hall 1 2).
  - by_evaluation.
  - reflexivity.
  - by_evaluation.
  - reflexivity.
  - reflexivity.
  - vm_compute. lia.
Defined.

(** ** The throttle gate *)

Lemma bind_Returns {A B} (m : Task A) (k : A → Task B) w a w' :
  m w = (Returns a, w') → bind m k w = k a w'.
Proof. unfold bind. by intros ->. Qed.

Lemma bind_Throws {A B} (m : Task A) (k : A → Task B) w error w' :
  m w = (Throws error, w') → bind m k w = (Throws error, w').
Proof. unfold bind. by intros ->. Qed.

(** C2. [timeUntilNextRefresh] returns 0 when nothing is stored under the
    key; the maximum of 0 and the stored timestamp plus 12 hours minus the
    current time when a number is stored; and, when what is stored is
    neither nil nor a number, 0 again, after a warning in the log. It
    returns in every case: nothing is thrown to the caller. *)
Theorem timeUntilNextRefresh_spec (w : World) :
  (storage w !! STORAGE_KEY = None →
   timeUntilNextRefresh w = (Returns 0%Z, w)) ∧
  (∀ stored,
     storage w !! STORAGE_KEY = Some (JsNumber stored) →
     timeUntilNextRefresh w
     = (Returns (Z.max 0 (stored + 12 * HOUR - clock w)), w)) ∧
  (∀ value,
     storage w !! STORAGE_KEY = Some value →
     isNil value = false →
     isNormalNumber value = false →
     timeUntilNextRefresh w
     = (Returns 0%Z,
        {| storage := storage w;
           heap := heap w;
           clock := clock w;
           log := log w ++ [(Warn, AssertionFailed invalidStoredValue)] |})) ∧
  (∃ remaining w', timeUntilNextRefresh w = (Returns remaining, w') ∧
                   (0 ≤ remaining)%Z).
Proof.
  unfold timeUntilNextRefresh. task_unfold.
  unfold bind, storageGet, dateNow, ret, assert, logAt.
  split; [|split; [|split]].
  - by intros ->.
  - by intros stored ->.
  - intros value -> Hnil Hnumber. simpl. by rewrite Hnil, Hnumber.
  - destruct (storage w !! STORAGE_KEY) as [value|]; simpl;
      [|eexists _, _; split; [reflexivity|lia]].
    destruct value; simpl; eexists _, _; (split; [reflexivity|lia]).
Qed.

(** C2 on the three worlds: nothing stored, a pass one hour ago, and a
    stored string. *)
Lemma timeUntilNextRefresh_spec_witness :
  timeUntilNextRefresh freshWorld = (Returns 0%Z, freshWorld) ∧
  timeUntilNextRefresh throttledWorld
  = (Returns (11 * HOUR)%Z, throttledWorld) ∧
  timeUntilNextRefresh corruptWorld
  = (Returns 0%Z,
     {| storage := storage corruptWorld;
        heap := heap corruptWorld;
        clock := clock corruptWorld;
        log := [(Warn, AssertionFailed invalidStoredValue)] |}).
Proof.
  split; [|split].
  - apply (proj1 (timeUntilNextRefresh_spec freshWorld)). reflexivity.
  - apply (proj1 (proj2 (timeUntilNextRefresh_spec throttledWorld))
             (today - HOUR)%Z).
    reflexivity.
  - apply (proj1 (proj2 (proj2 (timeUntilNextRefresh_spec corruptWorld)))
             (JsString "yesterday")); reflexivity.
Defined.

(** [timeUntilNextRefresh] computes the time remaining of the
    specification, and leaves the world as it is but for the log. *)
Lemma timeUntilNextRefresh_run (w : World) :
  ∃ w', timeUntilNextRefresh w
        = (Returns (timeRemaining (storage w) (clock w)), w') ∧
        storage w' = storage w ∧
        heap w' = heap w ∧
        clock w' = clock w ∧
        ∃ entries, log w' = log w ++ entries.
Proof.
  unfold timeUntilNextRefresh, timeRemaining. task_unfold.
  unfold bind, storageGet, dateNow, ret, assert, logAt.
  destruct (storage w !! STORAGE_KEY) as [value|]; simpl.
  - destruct value; simpl; eexists; (split; [reflexivity|]); simpl;
      repeat split; try (by exists []; rewrite app_nil_r); eauto.
  - eexists; split; [reflexivity|].
    repeat split. exists []. by rewrite app_nil_r.
Qed.

Lemma timeRemaining_after_waiting stored now :
  timeRemaining stored (now + timeRemaining stored now) = 0%Z.
Proof.
  unfold timeRemaining.
  destruct (stored !! STORAGE_KEY) as [[]|]; try reflexivity. lia.
Qed.

(** ** The pass *)

Section PassFacts.
Context `{ConversationModel}.
Variable getProfileFn : option string → option string → Task unit.

(** The two halves of [refreshConversation] make the whole. *)
Lemma refreshConversation_halves conversation counts w :
  refreshConversation getProfileFn conversation counts w
  = bind (beginRefresh getProfileFn conversation counts)
         (λ '(started, counts'), finishRefresh started counts') w.
Proof.
  destruct counts as [totalCount successCount].
  unfold refreshConversation, beginRefresh, finishRefresh. task_unfold.
  unfold bind, tryCatch, logAt, getWorld, call, await, ret.
  cbn [heap storage clock log].
  by destruct (getProfileFn _ _ _) as [[[]|error] w1].
Qed.

(** Starting a conversation counts one attempt and returns; the promise
    it holds is that of the call of [getProfileFn]. *)
Lemma beginRefresh_run conversation counts w :
  ∃ promise w',
    beginRefresh getProfileFn conversation counts w
    = (Returns ((conversation, promise), (S counts.1, counts.2)), w') ∧
    (alwaysFails getProfileFn → rejected (conversation, promise)) ∧
    (keepsThrottle getProfileFn →
     storage w' !! STORAGE_KEY = storage w !! STORAGE_KEY).
Proof.
  destruct counts as [totalCount successCount].
  unfold beginRefresh. task_unfold.
  unfold bind, logAt, getWorld, call, ret. cbn [heap storage clock log].
  match goal with |- context [getProfileFn ?u ?e ?w0] =>
    pose proof (λ Hfails : alwaysFails getProfileFn, Hfails u e w0) as Hfails;
    pose proof (λ Hkeeps : keepsThrottle getProfileFn, Hkeeps u e w0)
      as Hkeeps;
    destruct (getProfileFn u e w0) as [promise w1]
  end.
  exists promise, w1. split; [reflexivity|]. split.
  - intros Hall. destruct (Hfails Hall) as (error & w2 & [= -> _]).
    by exists error.
  - intros Hall. exact (Hkeeps Hall).
Qed.

(** Finishing a conversation returns, whichever way the promise settled,
    and counts a success or nothing. *)
Lemma finishRefresh_run started counts w :
  ∃ counts' w',
    finishRefresh started counts w = (Returns counts', w') ∧
    storage w' = storage w ∧
    counts'.1 = counts.1 ∧
    counts.2 ≤ counts'.2 ≤ S counts.2 ∧
    (rejected started → counts'.2 = counts.2).
Proof.
  destruct started as [conversation [[]|error]];
    destruct counts as [totalCount successCount];
    unfold finishRefresh; task_unfold;
    unfold tryCatch, bind, await, logAt, ret; cbn [fst snd storage];
    eexists _, _; (split; [reflexivity|]); cbn [fst snd storage];
    (split; [reflexivity|]); (split; [reflexivity|]); (split; [lia|]).
  - intros (error & [=]).
  - done.
Qed.

Lemma add_run conversation q counts w :
  ∃ q' counts' w',
    add getProfileFn conversation q counts w = (Returns (q', counts'), w') ∧
    counts'.1 + length (waiting q') = S (counts.1 + length (waiting q)) ∧
    counts'.2 = counts.2 ∧
    length (running q') + length (waiting q')
    = S (length (running q) + length (waiting q)) ∧
    (alwaysFails getProfileFn →
     Forall rejected (running q) → Forall rejected (running q')) ∧
    (keepsThrottle getProfileFn →
     storage w' !! STORAGE_KEY = storage w !! STORAGE_KEY).
Proof.
  unfold add. destruct (length (running q) <? CONCURRENCY).
  - task_unfold.
    destruct (beginRefresh_run conversation counts w)
      as (promise & w' & Hbegin & Hrejected & Hkept).
    rewrite (bind_Returns _ _ _ _ _ Hbegin). unfold ret.
    eexists _, _, _. split; [reflexivity|].
    cbn [fst snd running waiting]. rewrite length_app. cbn [length].
    split; [lia|]. split; [reflexivity|]. split; [lia|].
    split; [|exact Hkept].
    intros Hall Hrunning. apply Forall_app. split; [exact Hrunning|].
    apply Forall_singleton. by apply Hrejected.
  - unfold ret. eexists _, _, _. split; [reflexivity|].
    cbn [fst snd running waiting]. rewrite length_app. cbn [length].
    split; [lia|]. split; [reflexivity|]. split; [lia|]. by split.
Qed.

Lemma addAll_run conversations q counts w :
  ∃ q' counts' w',
    addAll getProfileFn conversations q counts w
    = (Returns (q', counts'), w') ∧
    counts'.1 + length (waiting q')
    = counts.1 + length (waiting q) + length conversations ∧
    counts'.2 = counts.2 ∧
    length (running q') + length (waiting q')
    = length (running q) + length (waiting q) + length conversations ∧
    (alwaysFails getProfileFn →
     Forall rejected (running q) → Forall rejected (running q')) ∧
    (keepsThrottle getProfileFn →
     storage w' !! STORAGE_KEY = storage w !! STORAGE_KEY).
Proof.
  revert q counts w.
  induction conversations as [|c rest IH]; intros q counts w;
    cbn [addAll length].
  { unfold ret. eexists _, _, _. split; [reflexivity|].
    split; [lia|]. split; [reflexivity|]. split; [lia|]. by split. }
  task_unfold.
  destruct (add_run c q counts w)
    as (q1 & counts1 & w1 & Hadd & Htotal & Hsuccess & Hsize & Hrejected
        & Hkept).
  rewrite (bind_Returns _ _ _ _ _ Hadd).
  destruct (IH q1 counts1 w1)
    as (q' & counts' & w' & Hrest & Htotal' & Hsuccess' & Hsize' & Hrejected'
        & Hkept').
  exists q', counts', w'. split; [exact Hrest|].
  split; [lia|]. split; [congruence|]. split; [lia|]. split.
  - intros Hall Hrunning. by apply Hrejected', Hrejected.
  - intros Hall. by rewrite (Hkept' Hall), (Hkept Hall).
Qed.

Lemma settleAll_run started counts w :
  ∃ counts' w',
    settleAll started counts w = (Returns counts', w') ∧
    storage w' = storage w ∧
    counts'.1 = counts.1 ∧
    counts.2 ≤ counts'.2 ≤ counts.2 + length started ∧
    (Forall rejected started → counts'.2 = counts.2).
Proof.
  revert counts w.
  induction started as [|oldest others IH]; intros counts w;
    cbn [settleAll length].
  { unfold ret. eexists _, _. split; [reflexivity|].
    split; [reflexivity|]. split; [reflexivity|]. split; [lia|done]. }
  task_unfold.
  destruct (finishRefresh_run oldest counts w)
    as (counts1 & w1 & Hfinish & Hstorage & Htotal & Hsuccess & Hrejected).
  rewrite (bind_Returns _ _ _ _ _ Hfinish).
  destruct (IH counts1 w1)
    as (counts' & w' & Hrest & Hstorage' & Htotal' & Hsuccess' & Hrejected').
  exists counts', w'. split; [exact Hrest|].
  split; [congruence|]. split; [congruence|]. split; [lia|].
  intros Hall. apply Forall_cons in Hall as [Holdest Hothers].
  rewrite (Hrejected' Hothers). by apply Hrejected.
Qed.

(** The queue comes to rest: every conversation that waited was started,
    and no more successes were counted than fetches ran or waited. *)
Lemma onIdle_run conversations started counts w :
  ∃ counts' w',
    onIdle getProfileFn conversations started counts w
    = (Returns counts', w') ∧
    counts'.1 = counts.1 + length conversations ∧
    counts.2 ≤ counts'.2
    ≤ counts.2 + length started + length conversations ∧
    (alwaysFails getProfileFn →
     Forall rejected started → counts'.2 = counts.2) ∧
    (keepsThrottle getProfileFn →
     storage w' !! STORAGE_KEY = storage w !! STORAGE_KEY).
Proof.
  revert started counts w.
  induction conversations as [|c rest IH]; intros started counts w;
    cbn [onIdle length].
  { destruct (settleAll_run started counts w)
      as (counts' & w' & Hsettle & Hstorage & Htotal & Hsuccess & Hrejected).
    exists counts', w'. split; [exact Hsettle|].
    split; [lia|]. split; [lia|]. split; [by intros _|].
    intros _. by rewrite Hstorage. }
  destruct started as [|oldest others]; task_unfold.
  - destruct (beginRefresh_run c counts w)
      as (promise & w1 & Hbegin & Hrejected & Hkept).
    rewrite (bind_Returns _ _ _ _ _ Hbegin).
    destruct (IH [(c, promise)] (S counts.1, counts.2) w1)
      as (counts' & w' & Hrest & Htotal & Hsuccess & Hnone & Hkept').
    cbn [fst snd length] in *.
    exists counts', w'. split; [exact Hrest|].
    split; [lia|]. split; [lia|]. split.
    + intros Hall _. apply Hnone; [done|].
      apply Forall_singleton. by apply Hrejected.
    + intros Hall. by rewrite (Hkept' Hall), (Hkept Hall).
  - destruct (finishRefresh_run oldest counts w)
      as (counts1 & w1 & Hfinish & Hstorage & Htotal1 & Hsuccess1 & Hsame).
    rewrite (bind_Returns _ _ _ _ _ Hfinish).
    destruct (beginRefresh_run c counts1 w1)
      as (promise & w2 & Hbegin & Hrejected & Hkept).
    rewrite (bind_Returns _ _ _ _ _ Hbegin).
    destruct (IH (others ++ [(c, promise)]) (S counts1.1, counts1.2) w2)
      as (counts' & w' & Hrest & Htotal & Hsuccess & Hnone & Hkept').
    rewrite length_app in Hsuccess. cbn [fst snd length] in *.
    exists counts', w'. split; [exact Hrest|].
    split; [lia|]. split; [lia|]. split.
    + intros Hall Hstarted. apply Forall_cons in Hstarted as [Holdest Hothers].
      rewrite Hnone; [by apply Hsame|done|].
      apply Forall_app. split; [exact Hothers|].
      apply Forall_singleton. by apply Hrejected.
    + intros Hall. by rewrite (Hkept' Hall), (Hkept Hall), Hstorage.
Qed.

(** The loop over the selection, when the selection ends by itself: every
    conversation handed out was added to the queue. *)
Lemma dispatch_Completed allConversations our w :
  status (getConversationsToRefresh (clock w) our allConversations (heap w))
  = Completed →
  ∃ q counts w',
    dispatch getProfileFn allConversations our w
    = (Returns (q, counts), w') ∧
    counts.1 + length (waiting q)
    = length (emitted (getConversationsToRefresh (clock w) our
                         allConversations (heap w))) ∧
    counts.2 = 0 ∧
    length (running q) + length (waiting q)
    = length (emitted (getConversationsToRefresh (clock w) our
                         allConversations (heap w))) ∧
    (alwaysFails getProfileFn → Forall rejected (running q)) ∧
    (keepsThrottle getProfileFn →
     storage w' !! STORAGE_KEY = storage w !! STORAGE_KEY).
Proof.
  unfold dispatch. task_unfold. unfold bind at 1. unfold getWorld.
  cbv zeta. unfold bind at 1. unfold setHeap.
  generalize (getConversationsToRefresh (clock w) our allConversations
                (heap w)).
  intros selection Hstatus.
  match goal with |- context [bind (addAll _ ?cs ?q0 ?counts0) _ ?w0] =>
    destruct (addAll_run cs q0 counts0 w0)
      as (q & counts & w' & Hadd & Htotal & Hsuccess & Hsize & Hrejected
          & Hkept)
  end.
  rewrite (bind_Returns _ _ _ _ _ Hadd), Hstatus. unfold ret.
  cbn [fst snd running waiting length storage] in *.
  exists q, counts, w'. split; [reflexivity|].
  split; [lia|]. split; [exact Hsuccess|]. split; [lia|]. split.
  - intros Hall. by apply Hrejected.
  - exact Hkept.
Qed.

(** The loop over the selection, when the selection throws: the loop
    throws the same error, after the conversations handed out before it
    were added to the queue. *)
Lemma dispatch_Raised allConversations our w error :
  status (getConversationsToRefresh (clock w) our allConversations (heap w))
  = Raised error →
  ∃ w',
    dispatch getProfileFn allConversations our w = (Throws error, w') ∧
    (keepsThrottle getProfileFn →
     storage w' !! STORAGE_KEY = storage w !! STORAGE_KEY).
Proof.
  unfold dispatch. task_unfold. unfold bind at 1. unfold getWorld.
  cbv zeta. unfold bind at 1. unfold setHeap.
  generalize (getConversationsToRefresh (clock w) our allConversations
                (heap w)).
  intros selection Hstatus.
  match goal with |- context [bind (addAll _ ?cs ?q0 ?counts0) _ ?w0] =>
    destruct (addAll_run cs q0 counts0 w0)
      as (q & counts & w' & Hadd & _ & _ & _ & _ & Hkept)
  end.
  rewrite (bind_Returns _ _ _ _ _ Hadd), Hstatus. unfold throw.
  exists w'. split; [reflexivity|exact Hkept].
Qed.

Lemma timeUntilNextRefresh_due w :
  (timeUntilNextRefresh w).1 = Returns 0%Z →
  timeRemaining (storage w) (clock w) = 0%Z.
Proof.
  destruct (timeUntilNextRefresh_run w) as (w' & -> & _). simpl. congruence.
Qed.

(** A pass that is due: the current time is stored under the key, and
    only then are the conversations selected and refreshed. *)
Lemma routineProfileRefresh_due allConversations our w :
  timeRemaining (storage w) (clock w) = 0%Z →
  ∃ w1,
    storage w1 = <[STORAGE_KEY := JsNumber (clock w)]> (storage w) ∧
    heap w1 = heap w ∧
    clock w1 = clock w ∧
    routineProfileRefresh getProfileFn allConversations our w
    = bind (dispatch getProfileFn allConversations our)
           (λ '(q, counts),
              bind (onIdle getProfileFn (waiting q) (running q) counts)
                   (λ counts',
                      logAt Info
                        (SuccessfullyRefreshed counts'.2 counts'.1)))
           w1.
Proof.
  intros Hdue. unfold routineProfileRefresh. task_unfold.
  erewrite bind_Returns by reflexivity.
  match goal with |- context [bind timeUntilNextRefresh _ ?w0] =>
    destruct (timeUntilNextRefresh_run w0) as (w0' & Hrun & Hs & Hh & Hc & _)
  end.
  rewrite (bind_Returns _ _ _ _ _ Hrun). cbn [storage clock].
  rewrite Hdue. change (0 <? 0)%Z with false. cbv iota.
  do 4 (erewrite bind_Returns by reflexivity).
  eexists. refine (conj _ (conj _ (conj _ eq_refl))); cbn [storage heap clock].
  - by rewrite Hs, Hc.
  - exact Hh.
  - exact Hc.
Qed.

(** A pass that is due and whose selection ends by itself returns. *)
Lemma routineProfileRefresh_Completed allConversations our w :
  timeRemaining (storage w) (clock w) = 0%Z →
  status (getConversationsToRefresh (clock w) our allConversations (heap w))
  = Completed →
  ∃ counts w',
    routineProfileRefresh getProfileFn allConversations our w
    = (Returns tt, w') ∧
    last (log w') = Some (Info, SuccessfullyRefreshed counts.2 counts.1) ∧
    counts.1 = length (emitted (getConversationsToRefresh (clock w) our
                                  allConversations (heap w))) ∧
    counts.2 ≤ length (emitted (getConversationsToRefresh (clock w) our
                                  allConversations (heap w))) ∧
    (alwaysFails getProfileFn → counts.2 = 0).
Proof.
  intros Hdue Hstatus.
  destruct (routineProfileRefresh_due allConversations our w Hdue)
    as (w1 & _ & Hh & Hc & ->).
  rewrite <- Hh, <- Hc in Hstatus |- *.
  destruct (dispatch_Completed allConversations our w1 Hstatus)
    as (q & counts & w2 & Hdispatch & Htotal & Hsuccess & Hsize & Hrejected
        & _).
  rewrite (bind_Returns _ _ _ _ _ Hdispatch).
  revert Htotal Hsize.
  generalize (length (emitted (getConversationsToRefresh (clock w1) our
                                 allConversations (heap w1)))).
  intros n Htotal Hsize.
  destruct (onIdle_run (waiting q) (running q) counts w2)
    as (counts' & w3 & Hidle & Htotal' & Hsuccess' & Hnone & _).
  rewrite (bind_Returns _ _ _ _ _ Hidle).
  exists counts'. eexists. split; [reflexivity|]. cbn [log].
  split; [apply last_snoc|]. split; [lia|]. split; [lia|].
  intros Hall. rewrite (Hnone Hall (Hrejected Hall)). exact Hsuccess.
Qed.

(** A pass that is due and whose selection throws, throws. *)
Lemma routineProfileRefresh_Raised allConversations our w error :
  timeRemaining (storage w) (clock w) = 0%Z →
  status (getConversationsToRefresh (clock w) our allConversations (heap w))
  = Raised error →
  ∃ w', routineProfileRefresh getProfileFn allConversations our w
        = (Throws error, w').
Proof.
  intros Hdue Hstatus.
  destruct (routineProfileRefresh_due allConversations our w Hdue)
    as (w1 & _ & Hh & Hc & ->).
  rewrite <- Hh, <- Hc in Hstatus.
  destruct (dispatch_Raised allConversations our w1 error Hstatus)
    as (w' & Hdispatch & _).
  rewrite (bind_Throws _ _ _ _ _ Hdispatch). by exists w'.
Qed.

(** A pass that is due and throws: the selection threw. *)
Lemma routineProfileRefresh_Throws allConversations our w error w' :
  timeRemaining (storage w) (clock w) = 0%Z →
  routineProfileRefresh getProfileFn allConversations our w
  = (Throws error, w') →
  status (getConversationsToRefresh (clock w) our allConversations (heap w))
  = Raised error.
Proof.
  intros Hdue Hthrows.
  destruct (status (getConversationsToRefresh (clock w) our
                      allConversations (heap w))) as [|error'] eqn:Hstatus.
  - destruct (routineProfileRefresh_Completed _ _ _ Hdue Hstatus)
      as (? & ? & Hreturns & _). congruence.
  - destruct (routineProfileRefresh_Raised _ _ _ _ Hdue Hstatus)
      as (? & Hthrows'). congruence.
Qed.

(** A pass that is due leaves its own time under the key, whether it
    returns or throws, when the fetches leave the key alone. *)
Lemma routineProfileRefresh_stamps allConversations our w :
  keepsThrottle getProfileFn →
  timeRemaining (storage w) (clock w) = 0%Z →
  storage (routineProfileRefresh getProfileFn allConversations our w).2
    !! STORAGE_KEY
  = Some (JsNumber (clock w)).
Proof.
  intros Hkeeps Hdue.
  destruct (routineProfileRefresh_due allConversations our w Hdue)
    as (w1 & Hs & Hh & Hc & ->).
  assert (Hstamp : storage w1 !! STORAGE_KEY = Some (JsNumber (clock w)))
    by (rewrite Hs; apply lookup_insert_eq).
  destruct (status (getConversationsToRefresh (clock w1) our
                      allConversations (heap w1))) as [|error] eqn:Hstatus.
  - destruct (dispatch_Completed allConversations our w1 Hstatus)
      as (q & counts & w2 & Hdispatch & _ & _ & _ & _ & Hkept).
    rewrite (bind_Returns _ _ _ _ _ Hdispatch).
    destruct (onIdle_run (waiting q) (running q) counts w2)
      as (counts' & w3 & Hidle & _ & _ & _ & Hkept').
    rewrite (bind_Returns _ _ _ _ _ Hidle).
    unfold logAt. cbn [snd storage].
    by rewrite (Hkept' Hkeeps), (Hkept Hkeeps).
  - destruct (dispatch_Raised allConversations our w1 error Hstatus)
      as (w2 & Hdispatch & Hkept).
    rewrite (bind_Throws _ _ _ _ _ Hdispatch). cbn [snd].
    by rewrite (Hkept Hkeeps).
Qed.
End PassFacts.

(** C7. A pass that is due, whose selection hands out N conversations and
    ends by itself, and in which every fetch throws: the pass returns,
    nothing is thrown to its caller, and its last word in the log is that
    it refreshed 0 out of N conversations. *)
Theorem pass_survives_failing_fetches `{ConversationModel}
    (getProfileFn : option string → option string → Task unit)
    (allConversations : list Ref) (our : string) (w : World) :
  (∀ u e w0, ∃ error w1, getProfileFn u e w0 = (Throws error, w1)) →
  (timeUntilNextRefresh w).1 = Returns 0%Z →
  let selection :=
    getConversationsToRefresh (clock w) our allConversations (heap w) in
  status selection = Completed →
  ∃ w', routineProfileRefresh getProfileFn allConversations our w
        = (Returns tt, w') ∧
        last (log w')
        = Some (Info, SuccessfullyRefreshed 0 (length (emitted selection))).
Proof.
  intros Hfail Hdue. cbv zeta. intros Hstatus.
  destruct (routineProfileRefresh_Completed getProfileFn allConversations
              our w (timeUntilNextRefresh_due w Hdue) Hstatus)
    as (counts & w' & Hrun & Hlast & Htotal & _ & Hnone).
  exists w'. split; [exact Hrun|].
  by rewrite Hlast, Htotal, (Hnone Hfail).
Qed.

(** C7 on the group "family" with a fetch that always fails: 0 out of 2. *)
Lemma pass_survives_failing_fetches_witness :
  ∃ w', @routineProfileRefresh expiryHasPassed failingFetch [0; 1] "me"
          freshWorld = (Returns tt, w') ∧
        last (log w') = Some (Info, SuccessfullyRefreshed 0 2).
Proof.
  destruct (@pass_survives_failing_fetches expiryHasPassed failingFetch
              [0; 1] "me" freshWorld) as (w' & Hrun & Hlast).
  - intros u e w0. by eexists _, _.
  - reflexivity.
  - vm_compute. reflexivity.
  - exists w'. split; [exact Hrun|].
    rewrite Hlast. vm_compute. reflexivity.
Defined.

(** C9. In a pass that is due, the current time is stored under the key
    before the loop over the selection begins, where the conversations are
    selected. A pass throws only when the selection throws; by then the
    fetches of the first conversations handed out were called, and when
    these leave the key alone, as the fetch of a profile does, the stored
    timestamp is that of this pass: the next pass is not due before 12
    hours after this one was. *)
Theorem failed_pass_keeps_timestamp `{ConversationModel}
    (getProfileFn : option string → option string → Task unit)
    (allConversations : list Ref) (our : string) (w : World) :
  (timeUntilNextRefresh w).1 = Returns 0%Z →
  (∃ w1,
     storage w1 !! STORAGE_KEY = Some (JsNumber (clock w)) ∧
     heap w1 = heap w ∧
     routineProfileRefresh getProfileFn allConversations our w
     = bind (dispatch getProfileFn allConversations our)
            (λ '(q, counts),
               bind (onIdle getProfileFn (waiting q) (running q) counts)
                    (λ counts',
                       logAt Info
                         (SuccessfullyRefreshed counts'.2 counts'.1)))
            w1) ∧
  (∀ error w',
     routineProfileRefresh getProfileFn allConversations our w
     = (Throws error, w') →
     status (getConversationsToRefresh (clock w) our allConversations
               (heap w)) = Raised error ∧
     (keepsThrottle getProfileFn →
      storage w' !! STORAGE_KEY = Some (JsNumber (clock w)) ∧
      (timeUntilNextRefresh w').1
      = Returns (Z.max 0 (clock w + 12 * HOUR - clock w')))).
Proof.
  intros Hdue. apply timeUntilNextRefresh_due in Hdue. split.
  - destruct (routineProfileRefresh_due getProfileFn allConversations our w
                Hdue) as (w1 & Hs & Hh & _ & Hrun).
    exists w1. split; [|split; [exact Hh|exact Hrun]].
    rewrite Hs. apply lookup_insert_eq.
  - intros error w' Hthrows. split.
    { exact (routineProfileRefresh_Throws getProfileFn allConversations
               our w error w' Hdue Hthrows). }
    intros Hkeeps.
    pose proof (routineProfileRefresh_stamps getProfileFn allConversations
                  our w Hkeeps Hdue) as Hstored.
    rewrite Hthrows in Hstored. cbn [snd] in Hstored.
    split; [exact Hstored|].
    destruct (timeUntilNextRefresh_run w') as (w'' & -> & _).
    unfold timeRemaining. by rewrite Hstored.
Qed.

(** C9 on a pass that throws at the conversation of unknown kind, after
    the fetches of two members of the group were called. *)
Lemma failed_pass_keeps_timestamp_witness :
  ∃ error w',
    @routineProfileRefresh expiryHasPassed failingFetch [0; 1; 5] "me"
      (worldWith ∅ stray) = (Throws error, w') ∧
    (Info, RefreshingProfileFor 2) ∈ log w' ∧
    (Info, RefreshingProfileFor 4) ∈ log w' ∧
    storage w' !! STORAGE_KEY = Some (JsNumber today) ∧
    (timeUntilNextRefresh w').1
    = Returns (Z.max 0 (today + 12 * HOUR - clock w')).
Proof.
  destruct (@routineProfileRefresh expiryHasPassed failingFetch [0; 1; 5]
              "me" (worldWith ∅ stray)) as [[[]|error] w'] eqn:Hrun.
  { exfalso. vm_compute in Hrun. discriminate. }
  exists error, w'. split; [reflexivity|].
  assert (Hdue : (timeUntilNextRefresh (worldWith ∅ stray)).1 = Returns 0%Z)
    by reflexivity.
  destruct (@failed_pass_keeps_timestamp expiryHasPassed failingFetch
              [0; 1; 5] "me" (worldWith ∅ stray) Hdue)
    as [_ Hthrown].
  destruct (Hthrown error w' Hrun) as (_ & Hkept).
  destruct Hkept as (Hstored & Hnext); [intros u e w0; reflexivity|].
  assert (Hlog : log w'
                 = [(Info, Starting); (Info, UpdatingLastRefreshTime);
                    (Info, StartingToRefresh);
                    (Info, RefreshingProfileFor 2);
                    (Info, RefreshingProfileFor 4)]).
  { vm_compute in Hrun. by injection Hrun as _ <-. }
  rewrite Hlog.
  split; [repeat first [apply list_elem_of_here|apply list_elem_of_further]|].
  split; [repeat first [apply list_elem_of_here|apply list_elem_of_further]|].
  split; [exact Hstored|exact Hnext].
Defined.

(** ** The scheduler loop *)

Lemma waitForNextRefresh_run (w0 : World) :
  ∃ w, waitForNextRefresh w0 = (Returns tt, w) ∧
       storage w = storage w0 ∧
       heap w = heap w0 ∧
       clock w = (clock w0 + timeRemaining (storage w0) (clock w0))%Z ∧
       timeRemaining (storage w) (clock w) = 0%Z.
Proof.
  unfold waitForNextRefresh. task_unfold.
  destruct (timeUntilNextRefresh_run w0) as (w1 & Hrun & Hs & Hh & Hc & _).
  rewrite (bind_Returns _ _ _ _ _ Hrun).
  erewrite bind_Returns by reflexivity.
  eexists. split; [reflexivity|]. cbn [storage heap clock].
  rewrite Hs, Hh, Hc. repeat split.
  apply timeRemaining_after_waiting.
Qed.

Section LoopFacts.
Context `{ConversationModel}.
Variable getProfileFn : option string → option string → Task unit.
Variable getAllConversations : World → list Ref.
Variable getOurConversationId : World → option string.

(** What a turn does, once the wait is over, when the pass throws. *)
Lemma iteration_failure w0 w our error w' :
  waitForNextRefresh w0 = (Returns tt, w) →
  getOurConversationId w = Some our →
  our ≠ "" →
  routineProfileRefresh getProfileFn (getAllConversations w) our w
  = (Throws error, w') →
  iteration getProfileFn getAllConversations getOurConversationId w0
  = (Returns tt,
     {| storage := storage w';
        heap := heap w';
        clock := (clock w' + MIN_REFRESH_DELAY)%Z;
        log := log w' ++ [(Err, Failure error)] |}).
Proof.
  intros Hwait Hour Hname Hthrows. unfold iteration. task_unfold.
  rewrite (bind_Returns _ _ _ _ _ Hwait).
  erewrite bind_Returns by reflexivity. rewrite Hour.
  destruct our as [|a rest]; [done|].
  unfold tryCatch. rewrite Hthrows. reflexivity.
Qed.

(** A turn of the loop returns, whatever happens in its pass. *)
Lemma iteration_returns w0 :
  ∃ w', iteration getProfileFn getAllConversations getOurConversationId w0
        = (Returns tt, w').
Proof.
  unfold iteration. task_unfold.
  destruct (waitForNextRefresh_run w0) as (w & Hwait & _).
  rewrite (bind_Returns _ _ _ _ _ Hwait).
  erewrite bind_Returns by reflexivity.
  destruct (getOurConversationId w) as [[|a rest]|].
  - by eexists.
  - unfold tryCatch.
    destruct (routineProfileRefresh getProfileFn (getAllConversations w)
                (String a rest) w) as [[[]|error] w'].
    + by eexists.
    + by eexists.
  - by eexists.
Qed.

(** C8. When the wait of a turn is over, the local identity is known, and
    the contacts hold a conversation of a kind other than individual and
    group that the scan reaches (it hands out fewer than 50 conversations):
    the selection throws the error that reports a kind nobody handles, and
    with it the pass; the turn catches the error, logs it after all that
    the pass has logged, sleeps one minute and returns, and the loop goes
    on with its next turn from there. *)
Theorem unknown_kind_recovery (w0 w : World) (our : string) (c : Ref)
    (kind : string) :
  waitForNextRefresh w0 = (Returns tt, w) →
  getOurConversationId w = Some our →
  our ≠ "" →
  c ∈ getAllConversations w →
  conv_type (heap w c) = OtherType kind →
  let selection :=
    getConversationsToRefresh (clock w) our (getAllConversations w) (heap w) in
  length (emitted selection) < 50 →
  ∃ unknown thrown w',
    status selection = Raised (missingCaseError unknown) ∧
    routineProfileRefresh getProfileFn (getAllConversations w) our w
    = (Throws (missingCaseError unknown), thrown) ∧
    iteration getProfileFn getAllConversations getOurConversationId w0
    = (Returns tt, w') ∧
    (∃ later,
       log w'
       = log thrown ++ (Err, Failure (missingCaseError unknown)) :: later) ∧
    clock w' = (clock thrown + 60000)%Z ∧
    ∀ turns,
      start getProfileFn getAllConversations getOurConversationId
            (S turns) w0
      = start getProfileFn getAllConversations getOurConversationId
              turns w'.
Proof.
  intros Hwait Hour Hname Hc Hkind. cbv zeta. intros Hlength.
  change 50 with MAX_CONVERSATIONS_TO_REFRESH in Hlength.
  destruct (selection_raises (clock w) our (getAllConversations w) (heap w)
              c kind Hc Hkind Hlength) as (unknown & Hstatus).
  destruct (waitForNextRefresh_run w0) as (w_ & Hwait' & _ & _ & _ & Hdue).
  rewrite Hwait in Hwait'. injection Hwait' as <-.
  destruct (routineProfileRefresh_Raised getProfileFn (getAllConversations w)
              our w _ Hdue Hstatus) as (thrown & Hrun).
  pose proof (iteration_failure w0 w our _ _ Hwait Hour Hname Hrun) as Hturn.
  exists unknown, thrown. eexists. split; [exact Hstatus|].
  split; [exact Hrun|]. split; [exact Hturn|]. cbn [log clock].
  split; [by exists []|]. split; [reflexivity|].
  intros turns. cbn [start]. task_unfold.
  by rewrite (bind_Returns _ _ _ _ _ Hturn).
Qed.
End LoopFacts.

(** C8 on the same conversations: the fetches of two members of the group
    are called, the selection throws at the conversation of unknown kind,
    the turn logs the failure and sleeps, and the loop goes on. *)
Lemma unknown_kind_recovery_witness :
  ∃ thrown w',
    status (@getConversationsToRefresh expiryHasPassed today "me" [0; 1; 5]
              stray) = Raised (MissingCaseError "channel") ∧
    @routineProfileRefresh expiryHasPassed failingFetch [0; 1; 5] "me"
      {| storage := ∅; heap := stray; clock := today;
         log := [(Info, WaitingFor 0)] |}
    = (Throws (MissingCaseError "channel"), thrown) ∧
    (Info, RefreshingProfileFor 2) ∈ log thrown ∧
    (Info, RefreshingProfileFor 4) ∈ log thrown ∧
    @iteration expiryHasPassed failingFetch strayConversations weAreMe
      (worldWith ∅ stray) = (Returns tt, w') ∧
    (∃ later,
       log w'
       = log thrown ++ (Err, Failure (MissingCaseError "channel")) :: later) ∧
    clock w' = (clock thrown + 60000)%Z ∧
    @start expiryHasPassed failingFetch strayConversations weAreMe 3
      (worldWith ∅ stray)
    = @start expiryHasPassed failingFetch strayConversations weAreMe 2 w'.
Proof.
  destruct (waitForNextRefresh (worldWith ∅ stray)) as [[[]|error0] w]
    eqn:Hwait; [|exfalso; vm_compute in Hwait; discriminate].
  assert (Hw : w = {| storage := ∅; heap := stray; clock := today;
                      log := [(Info, WaitingFor 0)] |}).
  { vm_compute in Hwait. by injection Hwait as <-. }
  destruct (@unknown_kind_recovery expiryHasPassed failingFetch
              strayConversations weAreMe (worldWith ∅ stray) w "me" 5
              "channel" Hwait)
    as (unknown & thrown & w' & Hstatus & Hrun & Hturn & Hlog & Hclock
        & Hloop).
  - reflexivity.
  - discriminate.
  - by_evaluation.
  - by rewrite Hw.
  - rewrite Hw. vm_compute. lia.
  - rewrite Hw in Hstatus, Hrun.
    assert (Hunknown : missingCaseError unknown = MissingCaseError "channel").
    { vm_compute in Hstatus. by injection Hstatus as <-. }
    rewrite Hunknown in Hrun, Hlog. clear Hstatus.
    exists thrown, w'. split; [vm_compute; reflexivity|].
    split; [exact Hrun|].
    assert (Hthrown : log thrown
                      = [(Info, WaitingFor 0); (Info, Starting);
                         (Info, UpdatingLastRefreshTime);
                         (Info, StartingToRefresh);
                         (Info, RefreshingProfileFor 2);
                         (Info, RefreshingProfileFor 4)]).
    { vm_compute in Hrun. by injection Hrun as <-. }
    split.
    { rewrite Hthrown.
      repeat first [apply list_elem_of_here|apply list_elem_of_further]. }
    split.
    { rewrite Hthrown.
      repeat first [apply list_elem_of_here|apply list_elem_of_further]. }
    split; [exact Hturn|]. split; [exact Hlog|]. split; [exact Hclock|].
    apply (Hloop 2).
Defined.

(** * More on the selection *)

Section SelectionExtras.
Context `{ConversationModel}.
Variable now : Z.
Variable our : string.

Lemma candidates_app h l1 l2 :
  candidates h (l1 ++ l2) = candidates h l1 ++ candidates h l2.
Proof. unfold candidates. apply bind_app. Qed.

Lemma candidates_cons h x l :
  candidates h (x :: l)
  = match conv_type (h x) with
    | Private => [x]
    | Group => getMembers (h x)
    | OtherType _ => []
    end ++ candidates h l.
Proof. unfold candidates. apply bind_cons. Qed.

Lemma candidates_evolved h h' l :
  evolved h h' → candidates h' l = candidates h l.
Proof.
  intros Hev. induction l as [|x l IH]; [done|].
  by rewrite !candidates_cons, IH, (evolved_conv_type _ _ Hev),
    (evolved_getMembers _ _ Hev).
Qed.

(** The conversations come out in the order in which the scan comes to
    them, each place of the scan giving one at most. *)
Lemma takeIterable_ordered amount g h :
  emitted (takeIterable now our amount g h)
  `sublist_of` membersLeft g ++ candidates h (conversationsLeft g).
Proof.
  revert g h. induction amount as [|amount IH]; intros g h; simpl;
    [apply sublist_nil_l|].
  destruct (next now our g h) as [c g' h'| |] eqn:Hnext; simpl;
    try apply sublist_nil_l.
  pose proof (next_evolved _ _ _ _ _ _ _ Hnext) as Hev.
  specialize (IH g' h'). rewrite (candidates_evolved _ _ _ Hev) in IH.
  destruct (next_Yielded _ _ _ _ _ _ _ Hnext)
    as [(skipped & -> & _ & _ & _ & _ & <- & _)
       |(_ & skipped & x & -> & _ & Hx)].
  - rewrite <- app_assoc. apply sublist_inserts_l. simpl.
    by apply sublist_skip.
  - apply sublist_inserts_l. rewrite candidates_app.
    apply sublist_inserts_l. rewrite candidates_cons.
    destruct (visit_Emit _ _ _ _ _ _ _ _ _ Hx)
      as [_ [(-> & -> & Hnone & _)|(-> & _ & Hmember)]].
    + rewrite Hnone in IH. simpl. by apply sublist_skip.
    + destruct (nextMember_Some _ _ _ _ _ _ _ Hmember) as (passed & -> & _).
      rewrite <- app_assoc. apply sublist_inserts_l. simpl.
      by apply sublist_skip.
Qed.

(** Every conversation handed out came in by one of the three ways. *)
Lemma takeIterable_justified h0 (listed : list Ref) amount g h :
  clearedIfExpired now h0 h →
  our ∈ conversationIdsSeen g →
  (∀ x, x ∈ conversationsLeft g → x ∈ listed) →
  (∀ m, m ∈ membersLeft g →
        ∃ x, x ∈ listed ∧ conv_type (h0 x) = Group ∧ m ∈ getMembers (h0 x)) →
  ∀ c, c ∈ emitted (takeIterable now our amount g h) →
       justified now our h0 listed c.
Proof.
  revert g h. induction amount as [|amount IH];
    intros g h Hinv Hour Hlisted Hmembers c0; simpl.
  { intros Hc0. by apply elem_of_nil in Hc0. }
  destruct (next now our g h) as [c g' h'| |] eqn:Hnext; simpl.
  2,3: intros Hc0; by apply elem_of_nil in Hc0.
  pose proof (clearedIfExpired_evolved _ _ _ Hinv) as Hev.
  assert (Hnotour : ∀ r, conv_id (h r) ∉ conversationIdsSeen g →
                         conv_id (h0 r) ≠ our).
  { intros r Hr Heq. apply Hr.
    by rewrite (evolved_conv_id _ _ Hev), Heq. }
  destruct (next_Yielded _ _ _ _ _ _ _ Hnext)
    as [(skipped & Hsplit & _ & Hseen & Hrecent & _ & Hleft & _)
       |(_ & skipped & x & Hsplit & _ & Hx)].
  - intros Hc0. apply elem_of_cons in Hc0 as [->|Hc0].
    + right. rewrite (evolved_hasRefreshedProfileRecently _ _ Hev) in Hrecent.
      split; [by apply Hnotour|]. split; [done|].
      apply Hmembers. rewrite Hsplit. apply elem_of_app. right. by left.
    + apply (IH g' h'); try done.
      * by eapply clearedIfExpired_next.
      * rewrite (next_seen _ _ _ _ _ _ _ Hnext). by apply elem_of_union_r.
      * by rewrite Hleft.
      * intros m Hm. apply Hmembers. rewrite Hsplit.
        apply elem_of_app. right. by right.
  - assert (Hxlisted : x ∈ listed).
    { apply Hlisted. rewrite Hsplit. apply elem_of_app. right. by left. }
    intros Hc0. apply elem_of_cons in Hc0 as [->|Hc0].
    + destruct (visit_Emit _ _ _ _ _ _ _ _ _ Hx)
        as [_ [(Htype & -> & _ & Hrule)|(Htype & _ & Hmember)]].
      * left. rewrite (evolved_conv_type _ _ Hev) in Htype.
        split; [done|]. split; [done|].
        destruct Hrule as [(Hexpired & _)|(Hseen & Hactive & Hrecent & _)].
        { left. destruct (Hinv x) as [Hsame|[? _]]; [|done].
          by rewrite Hsame in Hexpired. }
        right. rewrite (evolved_isConversationActive _ _ Hev) in Hactive.
        rewrite (evolved_hasRefreshedProfileRecently _ _ Hev) in Hrecent.
        split; [by apply Hnotour|done].
      * destruct (nextMember_Some _ _ _ _ _ _ _ Hmember)
          as (passed & Hall & _ & Hseen & Hrecent & _).
        right. rewrite (evolved_hasRefreshedProfileRecently _ _ Hev) in Hrecent.
        rewrite (evolved_conv_type _ _ Hev) in Htype.
        rewrite (evolved_getMembers _ _ Hev) in Hall.
        split; [by apply Hnotour|]. split; [done|].
        exists x. split; [done|]. split; [done|].
        rewrite Hall. apply elem_of_app. right. by left.
    + apply (IH g' h'); try done.
      * by eapply clearedIfExpired_next.
      * rewrite (next_seen _ _ _ _ _ _ _ Hnext). by apply elem_of_union_r.
      * intros y Hy. apply Hlisted. rewrite Hsplit.
        apply elem_of_app. right. by right.
      * intros m Hm.
        destruct (visit_Emit _ _ _ _ _ _ _ _ _ Hx)
          as [_ [(_ & _ & Hnone & _)|(Htype & _ & Hmember)]].
        { rewrite Hnone in Hm. by apply elem_of_nil in Hm. }
        destruct (nextMember_Some _ _ _ _ _ _ _ Hmember)
          as (passed & Hall & _).
        rewrite (evolved_conv_type _ _ Hev) in Htype.
        rewrite (evolved_getMembers _ _ Hev) in Hall.
        exists x. split; [done|]. split; [done|].
        rewrite Hall. apply elem_of_app. right. by right.
Qed.

(** What a resumption does to the store, and to whom. *)
Lemma next_cleared g h c g' h' :
  next now our g h = Yielded c g' h' →
  h' = h ∨
  (hasProfileKeyCredentialExpired now (h c) = true ∧
   conv_type (h c) = Private ∧
   c ∈ conversationsLeft g ∧
   h' = set_null c h).
Proof.
  intros Hnext. destruct (next_Yielded _ _ _ _ _ _ _ Hnext)
    as [(? & _ & _ & _ & _ & _ & _ & ->)|(_ & skipped & x & Hsplit & _ & Hx)];
    [by left|].
  destruct (visit_Emit _ _ _ _ _ _ _ _ _ Hx)
    as [_ [(? & -> & _ & [(? & _ & ->)|(_ & _ & _ & ->)])|(_ & -> & _)]];
    auto.
  right. repeat split; try done.
  rewrite Hsplit. apply elem_of_app. right. by left.
Qed.

(** What the selection does to the store: an object is as it was, or it is
    an individual of the list, handed out, whose credential, expired, is
    now cleared. *)
Lemma takeIterable_frame h0 (listed : list Ref) amount g h r :
  clearedIfExpired now h0 h →
  (∀ x, x ∈ conversationsLeft g → x ∈ listed) →
  store (takeIterable now our amount g h) r = h r ∨
  (r ∈ emitted (takeIterable now our amount g h) ∧
   r ∈ listed ∧
   conv_type (h0 r) = Private ∧
   hasProfileKeyCredentialExpired now (h0 r) = true ∧
   store (takeIterable now our amount g h) r = clearCredential (h0 r)).
Proof.
  revert g h. induction amount as [|amount IH]; intros g h Hinv Hlisted;
    simpl; [by left|].
  destruct (next now our g h) as [c g' h'| |] eqn:Hnext; simpl;
    try by left.
  pose proof (clearedIfExpired_evolved _ _ _ Hinv) as Hev.
  destruct (IH g' h' (clearedIfExpired_next _ _ _ _ _ _ _ _ Hinv Hnext))
    as [Hsame|(Hin & Hr & Htype & Hexpired & Hcleared)].
  - intros x Hx. apply Hlisted.
    destruct (next_conversationsLeft _ _ _ _ _ _ _ Hnext) as [visited ->].
    apply elem_of_app. by right.
  - rewrite Hsame.
    destruct (next_cleared _ _ _ _ _ Hnext)
      as [->|(Hexpired & Htype & Hc & ->)]; [by left|].
    destruct (set_null_cases c h r) as [?|[-> Hcleared]]; [by left|].
    right. rewrite (evolved_conv_type _ _ Hev) in Htype.
    split; [by left|]. split; [by apply Hlisted|]. split; [done|].
    destruct (Hinv c) as [Hc0|[Hexpired0 Hc0]];
      rewrite Hcleared, Hc0; [by rewrite Hc0 in Hexpired|done].
  - right. split; [by right|done].
Qed.

(** An individual that passes the two freshness tests is not passed over
    unless its id is in the set. *)
Lemma visit_Skip_eligible c seen h :
  visit now our c seen h = Skip →
  conv_type (h c) = Private →
  isConversationActive now (h c) = true →
  hasRefreshedProfileRecently now (h c) = false →
  conv_id (h c) ∈ seen.
Proof.
  intros Hskip Htype Hactive Hrecent.
  destruct (decide (conv_id (h c) ∈ seen)) as [|Hseen]; [done|].
  destruct (visit_eligible now our c seen h Htype Hactive Hrecent Hseen)
    as (h' & Hvisit & _).
  congruence.
Qed.

(** A scan that ends by itself, not cut short, has handed out, for every
    individual that passes the two freshness tests, a conversation of its
    id, unless the id was in the set from the start. *)
Lemma takeIterable_covers_individuals amount g h c :
  c ∈ conversationsLeft g →
  conv_type (h c) = Private →
  isConversationActive now (h c) = true →
  hasRefreshedProfileRecently now (h c) = false →
  status (takeIterable now our amount g h) = Completed →
  length (emitted (takeIterable now our amount g h)) < amount →
  conv_id (h c) ∈ conversationIdsSeen g ∨
  ∃ c', c' ∈ emitted (takeIterable now our amount g h) ∧
        conv_id (h c') = conv_id (h c).
Proof.
  revert g h. induction amount as [|amount IH];
    intros g h Hc Htype Hactive Hrecent; simpl; [lia|].
  destruct (next now our g h) as [c0 g' h'| |] eqn:Hnext; simpl.
  - intros Hstatus Hlength.
    pose proof (next_evolved _ _ _ _ _ _ _ Hnext) as Hev.
    assert (Hstep : conv_id (h c) ∈ conversationIdsSeen g ∨ c = c0 ∨
                    c ∈ conversationsLeft g').
    { destruct (next_Yielded _ _ _ _ _ _ _ Hnext)
        as [(_ & _ & _ & _ & _ & _ & -> & _)
           |(_ & skipped & x & Hsplit & Hs & Hx)]; [auto|].
      rewrite Hsplit in Hc. apply elem_of_app in Hc as [Hc|Hc].
      { left. rewrite Forall_forall in Hs.
        by apply visit_Skip_eligible; [apply Hs|..]. }
      apply elem_of_cons in Hc as [->|Hc]; [|auto].
      destruct (visit_Emit _ _ _ _ _ _ _ _ _ Hx)
        as [_ [(_ & -> & _)|(? & _)]]; [auto|congruence]. }
    destruct Hstep as [?|[->|Hc']]; [by left| |].
    { right. exists c0. split; [by left|done]. }
    destruct (IH g' h') as [Hseen|(c' & Hc'in & Hid)]; try done; try lia.
    + by rewrite (evolved_conv_type _ _ Hev).
    + by rewrite (evolved_isConversationActive _ _ Hev).
    + by rewrite (evolved_hasRefreshedProfileRecently _ _ Hev).
    + rewrite (evolved_conv_id _ _ Hev),
        (next_seen _ _ _ _ _ _ _ Hnext) in Hseen.
      apply elem_of_union in Hseen as [Hseen|Hseen]; [|by left].
      apply elem_of_singleton in Hseen.
      right. exists c0. split; [by left|done].
    + rewrite !(evolved_conv_id _ _ Hev) in Hid.
      right. exists c'. split; [by right|done].
  - intros _ _. left. apply next_Done in Hnext as [_ Hs].
    rewrite Forall_forall in Hs.
    by apply visit_Skip_eligible; [apply Hs|..].
  - discriminate.
Qed.

(** The generator before its first resumption. *)
Lemma clearedIfExpired_refl h : clearedIfExpired now h h.
Proof. intros r. by left. Qed.

Lemma initial_seen conversations h :
  our ∈ conversationIdsSeen (getFilteredConversations our conversations h).
Proof.
  unfold getFilteredConversations, conversationIdsSeen.
  by apply elem_of_singleton.
Qed.

Lemma initial_listed conversations h x :
  x ∈ conversationsLeft (getFilteredConversations our conversations h) →
  x ∈ conversations.
Proof.
  unfold getFilteredConversations, conversationsLeft.
  by rewrite sortBy_Permutation.
Qed.

Lemma initial_members conversations h m :
  m ∈ membersLeft (getFilteredConversations our conversations h) →
  ∃ x, x ∈ conversations ∧ conv_type (h x) = Group ∧ m ∈ getMembers (h x).
Proof. intros Hm. by apply elem_of_nil in Hm. Qed.

(** A conversation that was refreshed of late comes out by the override
    alone, and the override clears its credential. *)
Lemma takeIterable_recent_cleared h0 amount g h m :
  clearedIfExpired now h0 h →
  hasRefreshedProfileRecently now (h0 m) = true →
  m ∈ emitted (takeIterable now our amount g h) →
  store (takeIterable now our amount g h) m = clearCredential (h0 m).
Proof.
  revert g h. induction amount as [|amount IH]; intros g h Hinv Hrecent;
    simpl.
  { intros Hm. by apply elem_of_nil in Hm. }
  destruct (next now our g h) as [c g' h'| |] eqn:Hnext; simpl.
  2,3: intros Hm; by apply elem_of_nil in Hm.
  pose proof (clearedIfExpired_evolved _ _ _ Hinv) as Hev.
  pose proof (clearedIfExpired_next _ _ _ _ _ _ _ _ Hinv Hnext) as Hinv'.
  intros Hm. destruct (decide (m = c)) as [->|Hne].
  - assert (Hrecent' : hasRefreshedProfileRecently now (h c) = true)
      by (by rewrite (evolved_hasRefreshedProfileRecently _ _ Hev)).
    destruct (next_Yielded _ _ _ _ _ _ _ Hnext)
      as [(? & _ & _ & _ & ? & _)|(_ & skipped & x & _ & _ & Hx)];
      [congruence|].
    destruct (visit_Emit _ _ _ _ _ _ _ _ _ Hx)
      as [_ [(_ & -> & _ & [(_ & _ & ->)|(_ & _ & ? & _)])|(_ & _ & Hmember)]].
    + destruct (takeIterable_evolved now our amount g' (set_null x h) x)
        as [->| ->];
        rewrite set_null_same; destruct (Hinv x) as [->|(_ & ->)];
        reflexivity.
    + congruence.
    + destruct (nextMember_Some _ _ _ _ _ _ _ Hmember)
        as (_ & _ & _ & _ & ? & _).
      congruence.
  - apply elem_of_cons in Hm as [?|Hm]; [done|]. by apply IH.
Qed.

Lemma selection_recent_override conversations h m :
  hasRefreshedProfileRecently now (h m) = true →
  m ∈ emitted (getConversationsToRefresh now our conversations h) →
  m ∈ conversations ∧
  conv_type (h m) = Private ∧
  hasProfileKeyCredentialExpired now (h m) = true ∧
  store (getConversationsToRefresh now our conversations h) m
  = clearCredential (h m).
Proof.
  unfold getConversationsToRefresh. intros Hrecent Hm.
  pose proof (takeIterable_justified h conversations _ _ h
                (clearedIfExpired_refl h) (initial_seen conversations h)
                (initial_listed conversations h)
                (initial_members conversations h) m Hm) as Hjustified.
  pose proof (takeIterable_recent_cleared h _ _ h m
                (clearedIfExpired_refl h) Hrecent Hm) as Hstore.
  destruct Hjustified
    as [(Hin & Htype & [Hexpired|(_ & _ & ?)])|(_ & ? & _)];
    try congruence.
  auto.
Qed.

(** C10, as amended. The scan of a group has no override: a member that
    was refreshed within 24 hours is passed over, whether its credential is
    expired or not, and the store is as it was. Over the whole selection,
    a conversation refreshed within 24 hours that the input does not list
    as an individual as well is not handed out, and its credential fields
    are what they were; and one that is handed out is an individual of the
    input whose credential is expired, handed out by the override, with its
    credential fields null afterwards. *)
Theorem group_members_no_override (conversations : list Ref) (h : Heap) :
  (∀ m members rest seen,
     hasRefreshedProfileRecently now (h m) = true →
     next now our {| membersLeft := m :: members;
                     conversationsLeft := rest;
                     conversationIdsSeen := seen |} h
     = next now our {| membersLeft := members;
                       conversationsLeft := rest;
                       conversationIdsSeen := seen |} h) ∧
  (let selection := getConversationsToRefresh now our conversations h in
   ∀ m,
     hasRefreshedProfileRecently now (h m) = true →
     (m ∈ conversations → conv_type (h m) ≠ Private) →
     (m ∉ emitted selection) ∧
     profileKeyCredential (store selection m) = profileKeyCredential (h m) ∧
     profileKeyCredentialExpiration (store selection m)
     = profileKeyCredentialExpiration (h m)) ∧
  (let selection := getConversationsToRefresh now our conversations h in
   ∀ m,
     hasRefreshedProfileRecently now (h m) = true →
     m ∈ emitted selection →
     m ∈ conversations ∧
     conv_type (h m) = Private ∧
     hasProfileKeyCredentialExpired now (h m) = true ∧
     profileKeyCredential (store selection m) = CredentialNull ∧
     profileKeyCredentialExpiration (store selection m) = Null).
Proof.
  split; [|split].
  - intros m members rest seen Hrecent.
    apply next_member_passed_over. by right.
  - intros selection m Hrecent Hkind.
    destruct (selection_recent_untouched now our conversations h m
                Hrecent Hkind) as [Hout Hstore].
    split; [exact Hout|]. fold selection in Hstore. by rewrite Hstore.
  - intros selection m Hrecent Hm.
    destruct (selection_recent_override conversations h m Hrecent Hm)
      as (Hin & Htype & Hexpired & Hstore).
    fold selection in Hstore. by rewrite Hstore.
Qed.

(** X1. Every conversation that the selection hands out came in by one of
    the three rules, read on the store as it was before the selection: it
    is an individual of the input with an expired credential, or an
    individual of the input, not the local identity, that is active within
    30 days and was not refreshed within 24 hours, or a member of a group
    of the input, not the local identity, that was not refreshed within
    24 hours. *)
Theorem selection_justified (conversations : list Ref) (h : Heap) (c : Ref) :
  c ∈ emitted (getConversationsToRefresh now our conversations h) →
  justified now our h conversations c.
Proof.
  unfold getConversationsToRefresh.
  apply (takeIterable_justified h conversations).
  - apply clearedIfExpired_refl.
  - apply initial_seen.
  - apply initial_listed.
  - apply initial_members.
Qed.

(** X2. The selection writes nothing but the two credential fields, and
    those only of conversations it hands out: after it, an object of the
    store is as it was, or it is an individual of the input that was
    handed out, whose credential was expired, and it is what it was with
    the two fields set to null. *)
Theorem selection_frame (conversations : list Ref) (h : Heap) (r : Ref) :
  let selection := getConversationsToRefresh now our conversations h in
  store selection r = h r ∨
  (r ∈ emitted selection ∧
   r ∈ conversations ∧
   conv_type (h r) = Private ∧
   hasProfileKeyCredentialExpired now (h r) = true ∧
   store selection r = clearCredential (h r)).
Proof.
  cbv zeta. unfold getConversationsToRefresh.
  apply (takeIterable_frame h conversations).
  - apply clearedIfExpired_refl.
  - apply initial_listed.
Qed.

(** X3. When the selection ends by itself with fewer than 50 conversations,
    no individual that qualifies is left out: for every individual of the
    input that is active within 30 days and was not refreshed within 24
    hours, a conversation of its id is handed out, unless it is the local
    identity. *)
Theorem selection_complete (conversations : list Ref) (h : Heap) (c : Ref) :
  c ∈ conversations →
  conv_type (h c) = Private →
  isConversationActive now (h c) = true →
  hasRefreshedProfileRecently now (h c) = false →
  status (getConversationsToRefresh now our conversations h) = Completed →
  length (emitted (getConversationsToRefresh now our conversations h)) < 50 →
  conv_id (h c) = our ∨
  ∃ c', c' ∈ emitted (getConversationsToRefresh now our conversations h) ∧
        conv_id (h c') = conv_id (h c).
Proof.
  change 50 with MAX_CONVERSATIONS_TO_REFRESH.
  unfold getConversationsToRefresh.
  intros Hc Htype Hactive Hrecent Hstatus Hlength.
  assert (Hin : c ∈ conversationsLeft
                       (getFilteredConversations our conversations h)).
  { unfold getFilteredConversations, conversationsLeft.
    by rewrite sortBy_Permutation. }
  destruct (takeIterable_covers_individuals MAX_CONVERSATIONS_TO_REFRESH
              (getFilteredConversations our conversations h) h c
              Hin Htype Hactive Hrecent Hstatus Hlength) as [Hseen|Hc'];
    [|by right].
  left. unfold getFilteredConversations, conversationIdsSeen in Hseen.
  by apply elem_of_singleton in Hseen.
Qed.

(** X4. The selection keeps the order of the scan: the conversations
    handed out are, in their order, a subsequence of what the sorted
    contacts offer, an individual standing for itself and a group for its
    members in their order. *)
Theorem selection_ordered (conversations : list Ref) (h : Heap) :
  emitted (getConversationsToRefresh now our conversations h)
  `sublist_of` candidates h (sortBy (λ c, active_at (h c)) conversations).
Proof.
  unfold getConversationsToRefresh.
  apply (takeIterable_ordered MAX_CONVERSATIONS_TO_REFRESH
           (getFilteredConversations our conversations h) h).
Qed.

(** X5. The 24-hour rule binds everybody but the individuals with an
    expired credential: a conversation that was refreshed within 24 hours
    and whose credential is not expired is not handed out, and the
    selection leaves it as it was. *)
Theorem recently_refreshed_left_alone (conversations : list Ref) (h : Heap)
    (c : Ref) :
  hasRefreshedProfileRecently now (h c) = true →
  hasProfileKeyCredentialExpired now (h c) = false →
  (c ∉ emitted (getConversationsToRefresh now our conversations h)) ∧
  store (getConversationsToRefresh now our conversations h) c = h c.
Proof.
  unfold getConversationsToRefresh. intros Hrecent Hvalid. split.
  - intros Hc.
    pose proof (takeIterable_justified h conversations _ _ h
                  (clearedIfExpired_refl h) (initial_seen conversations h)
                  (initial_listed conversations h)
                  (initial_members conversations h) c Hc) as Hrule.
    destruct Hrule as [(_ & _ & [?|(_ & _ & ?)])|(_ & ? & _)]; congruence.
  - destruct (takeIterable_frame h conversations
                MAX_CONVERSATIONS_TO_REFRESH
                (getFilteredConversations our conversations h) h c
                (clearedIfExpired_refl h) (initial_listed conversations h))
      as [Hsame|(_ & _ & _ & Hexpired & _)]; [exact Hsame|congruence].
Qed.

(** X6. The 30-day rule binds the individuals: a conversation without
    activity within 30 days, whose credential is not expired and that is
    no member of a group of the input, is not handed out, and the
    selection leaves it as it was. *)
Theorem inactive_left_alone (conversations : list Ref) (h : Heap) (c : Ref) :
  isConversationActive now (h c) = false →
  hasProfileKeyCredentialExpired now (h c) = false →
  (∀ x, x ∈ conversations → conv_type (h x) = Group →
        c ∉ getMembers (h x)) →
  (c ∉ emitted (getConversationsToRefresh now our conversations h)) ∧
  store (getConversationsToRefresh now our conversations h) c = h c.
Proof.
  unfold getConversationsToRefresh. intros Hinactive Hvalid Hnomember. split.
  - intros Hc.
    pose proof (takeIterable_justified h conversations _ _ h
                  (clearedIfExpired_refl h) (initial_seen conversations h)
                  (initial_listed conversations h)
                  (initial_members conversations h) c Hc) as Hrule.
    destruct Hrule as [(_ & _ & [?|(_ & ? & _)])|(_ & _ & x & Hx & Htype & Hm)];
      try congruence.
    by apply (Hnomember x).
  - destruct (takeIterable_frame h conversations
                MAX_CONVERSATIONS_TO_REFRESH
                (getFilteredConversations our conversations h) h c
                (clearedIfExpired_refl h) (initial_listed conversations h))
      as [Hsame|(_ & _ & _ & Hexpired & _)]; [exact Hsame|congruence].
Qed.
End SelectionExtras.

(** C10, as the specification states it, fails: "fresh" is a member of the
    group "family", its credential expired and it was refreshed an hour
    ago; the contacts list it as an individual as well, and there the
    override hands it out and clears its credential. *)
Lemma group_members_no_override_counterexample :
  conv_type (family 1) = Group ∧
  getMembers (family 1) = [2; 3; 4] ∧
  @hasProfileKeyCredentialExpired expiryHasPassed today (family 3) = true ∧
  hasRefreshedProfileRecently today (family 3) = true ∧
  emitted (@getConversationsToRefresh expiryHasPassed today "me"
             [0; 1; 3] family) = [2; 4; 3] ∧
  profileKeyCredential (family 3) = CredentialValue "credential" ∧
  profileKeyCredential
    (store (@getConversationsToRefresh expiryHasPassed today "me"
              [0; 1; 3] family) 3) = CredentialNull ∧
  profileKeyCredentialExpiration (family 3) = Millis DAY ∧
  profileKeyCredentialExpiration
    (store (@getConversationsToRefresh expiryHasPassed today "me"
              [0; 1; 3] family) 3) = Null.
Proof. vm_compute. repeat split. Qed.

(** C10, as amended, on the group "family": listed through the group
    alone, "fresh", whose credential expired, stays out and keeps its
    credential; listed as an individual as well, it is handed out by the
    override, which clears its credential. *)
Lemma group_members_no_override_witness :
  @hasProfileKeyCredentialExpired expiryHasPassed today (family 3) = true ∧
  (3 ∉ emitted (@getConversationsToRefresh expiryHasPassed today "me"
                  [0; 1] family)) ∧
  profileKeyCredential
    (store (@getConversationsToRefresh expiryHasPassed today "me"
              [0; 1] family) 3) = CredentialValue "credential" ∧
  profileKeyCredentialExpiration
    (store (@getConversationsToRefresh expiryHasPassed today "me"
              [0; 1] family) 3) = Millis DAY ∧
  profileKeyCredential
    (store (@getConversationsToRefresh expiryHasPassed today "me"
              [0; 1; 3] family) 3) = CredentialNull.
Proof.
  assert (Hrecent : hasRefreshedProfileRecently today (family 3) = true)
    by reflexivity.
  destruct (@group_members_no_override expiryHasPassed today "me"
              [0; 1] family) as (_ & Hall & _).
  destruct (Hall 3 Hrecent) as (Hout & Hcredential & Hexpiration).
  { intros Hin. exfalso. revert Hin. by_evaluation. }
  destruct (@group_members_no_override expiryHasPassed today "me"
              [0; 1; 3] family) as (_ & _ & Honly).
  assert (Hin : 3 ∈ emitted (@getConversationsToRefresh expiryHasPassed
                               today "me" [0; 1; 3] family)).
  { replace (emitted (@getConversationsToRefresh expiryHasPassed today "me"
                        [0; 1; 3] family)) with [2; 4; 3]
      by (vm_compute; reflexivity).
    by_evaluation. }
  destruct (Honly 3 Hrecent Hin) as (_ & _ & _ & Hcleared & _).
  split; [reflexivity|]. split; [exact Hout|].
  split; [exact Hcredential|]. split; [exact Hexpiration|exact Hcleared].
Defined.

(** X1 on the group "family": "old" is handed out, as a member. *)
Lemma selection_justified_witness :
  @justified expiryHasPassed today "me" family [0; 1] 2.
Proof.
  apply (@selection_justified expiryHasPassed today "me" [0; 1] family 2).
  by_evaluation.
Defined.

(** X3 on ten contacts and the local identity: contact 3 is not left
    out. *)
Lemma selection_complete_witness :
  conv_id (crowd 3) = "me" ∨
  ∃ c', c' ∈ emitted (@getConversationsToRefresh expiryHasPassed today "me"
                        (seq 0 11) crowd) ∧
        conv_id (crowd c') = conv_id (crowd 3).
Proof.
  apply (@selection_complete expiryHasPassed today "me" (seq 0 11) crowd 3).
  - by_evaluation.
  - reflexivity.
  - reflexivity.
  - reflexivity.
  - vm_compute. reflexivity.
  - vm_compute. lia.
Defined.

(** X5 on the neighbours: "recent" is listed and is a member of the group,
    and stays out. *)
Lemma recently_refreshed_left_alone_witness :
  (2 ∉ emitted (@getConversationsToRefresh expiryHasPassed today "me"
                  [0; 1; 2; 3] neighbours)) ∧
  store (@getConversationsToRefresh expiryHasPassed today "me"
           [0; 1; 2; 3] neighbours) 2 = neighbours 2.
Proof.
  apply (@recently_refreshed_left_alone expiryHasPassed today "me"
           [0; 1; 2; 3] neighbours 2); reflexivity.
Defined.

(** X6 on the neighbours: "idle" is listed, and stays out. *)
Lemma inactive_left_alone_witness :
  (3 ∉ emitted (@getConversationsToRefresh expiryHasPassed today "me"
                  [0; 1; 2; 3] neighbours)) ∧
  store (@getConversationsToRefresh expiryHasPassed today "me"
           [0; 1; 2; 3] neighbours) 3 = neighbours 3.
Proof.
  apply (@inactive_left_alone expiryHasPassed today "me"
           [0; 1; 2; 3] neighbours 3); try reflexivity.
  refine (proj1 (Forall_forall
                   (λ x, conv_type (neighbours x) = Group →
                         3 ∉ getMembers (neighbours x))
                   [0; 1; 2; 3]) _).
  by_evaluation.
Defined.

(** * More on the pass and the loop *)

Lemma timeUntilNextRefresh_number (w : World) (stored : Z) :
  storage w !! STORAGE_KEY = Some (JsNumber stored) →
  timeUntilNextRefresh w
  = (Returns (Z.max 0 (stored + 12 * HOUR - clock w)), w).
Proof.
  intros Hstored. unfold timeUntilNextRefresh. task_unfold.
  unfold bind, storageGet, dateNow, ret. by rewrite Hstored.
Qed.

Section PassExtras.
Context `{ConversationModel}.
Variable getProfileFn : option string → option string → Task unit.

(** X7. A pass within 12 hours of the stored timestamp does nothing: it
    says that it is too soon and returns; the storage, the conversations
    and the clock are as they were, and no profile is fetched. *)
Theorem pass_too_soon (allConversations : list Ref) (our : string)
    (w : World) (stored : Z) :
  storage w !! STORAGE_KEY = Some (JsNumber stored) →
  (clock w < stored + 12 * HOUR)%Z →
  routineProfileRefresh getProfileFn allConversations our w
  = (Returns tt,
     {| storage := storage w;
        heap := heap w;
        clock := clock w;
        log := log w ++ [(Info, Starting); (Info, TooSoon)] |}).
Proof.
  intros Hstored Hsoon. unfold routineProfileRefresh. task_unfold.
  erewrite bind_Returns by reflexivity.
  erewrite bind_Returns by (by apply (timeUntilNextRefresh_number _ stored)).
  cbn [clock].
  replace (0 <? Z.max 0 (stored + 12 * HOUR - clock w))%Z with true
    by (symmetry; apply Z.ltb_lt; lia).
  unfold logAt. cbn [storage heap clock log].
  by rewrite <- app_assoc.
Qed.

(** X8. A pass that is due and whose selection ends by itself with N
    conversations returns, whatever the fetches do, and its last word in
    the log is that it refreshed s out of N conversations, with s at most
    N. *)
Theorem pass_counters (allConversations : list Ref) (our : string)
    (w : World) :
  (timeUntilNextRefresh w).1 = Returns 0%Z →
  status (getConversationsToRefresh (clock w) our allConversations (heap w))
  = Completed →
  ∃ successCount w',
    routineProfileRefresh getProfileFn allConversations our w
    = (Returns tt, w') ∧
    last (log w')
    = Some (Info,
            SuccessfullyRefreshed successCount
              (length (emitted (getConversationsToRefresh (clock w) our
                                  allConversations (heap w))))) ∧
    successCount
    ≤ length (emitted (getConversationsToRefresh (clock w) our
                         allConversations (heap w))).
Proof.
  intros Hdue Hstatus.
  destruct (routineProfileRefresh_Completed getProfileFn allConversations
              our w (timeUntilNextRefresh_due w Hdue) Hstatus)
    as (counts & w' & Hrun & Hlast & Htotal & Hbound & _).
  exists counts.2, w'. split; [exact Hrun|].
  split; [by rewrite Hlast, Htotal|exact Hbound].
Qed.
End PassExtras.

Section LoopExtras.
Context `{ConversationModel}.
Variable getProfileFn : option string → option string → Task unit.
Variable getAllConversations : World → list Ref.
Variable getOurConversationId : World → option string.

(** X9. A turn that finds no local identity, none or the empty string,
    runs no pass: it warns, sleeps one minute and returns, and the storage
    (so the stored timestamp too) and the conversations are as they were
    after the wait. *)
Theorem turn_without_identity (w0 w : World) :
  waitForNextRefresh w0 = (Returns tt, w) →
  getOurConversationId w = None ∨ getOurConversationId w = Some "" →
  iteration getProfileFn getAllConversations getOurConversationId w0
  = (Returns tt,
     {| storage := storage w;
        heap := heap w;
        clock := (clock w + 60000)%Z;
        log := log w ++ [(Warn, MissingOurConversationId)] |}).
Proof.
  intros Hwait Hmissing. unfold iteration. task_unfold.
  rewrite (bind_Returns _ _ _ _ _ Hwait).
  erewrite bind_Returns by reflexivity.
  by destruct Hmissing as [-> | ->].
Qed.

(** X10. What the pass of a turn throws does not end the loop: whatever
    the fetches and the contacts are, when the local identity provider and
    the storage return, as they do here, every turn returns, and so does
    any number of turns. What the pass throws is caught in the turn. *)
Theorem loop_never_throws (turns : nat) (w0 : World) :
  ∃ w', start getProfileFn getAllConversations getOurConversationId turns w0
        = (Returns tt, w').
Proof.
  revert w0. induction turns as [|turns IH]; intros w0.
  - exists w0. reflexivity.
  - cbn [start]. task_unfold.
    destruct (iteration_returns getProfileFn getAllConversations
                getOurConversationId w0) as (w1 & Hturn).
    rewrite (bind_Returns _ _ _ _ _ Hturn). apply IH.
Qed.

End LoopExtras.

(** X7 on a world whose last pass was triggered an hour ago. *)
Lemma pass_too_soon_witness :
  @routineProfileRefresh expiryHasPassed failingFetch [0; 1] "me"
    throttledWorld
  = (Returns tt,
     {| storage := storage throttledWorld;
        heap := heap throttledWorld;
        clock := clock throttledWorld;
        log := [(Info, Starting); (Info, TooSoon)] |}).
Proof.
  apply (@pass_too_soon expiryHasPassed failingFetch [0; 1] "me"
           throttledWorld (today - HOUR)%Z).
  - reflexivity.
  - vm_compute. reflexivity.
Defined.

(** X8 on the group "family" with a fetch that always succeeds: 2 out of
    2. *)
Lemma pass_counters_witness :
  ∃ w', @routineProfileRefresh expiryHasPassed workingFetch [0; 1] "me"
          freshWorld = (Returns tt, w') ∧
        last (log w') = Some (Info, SuccessfullyRefreshed 2 2).
Proof.
  destruct (@pass_counters expiryHasPassed workingFetch [0; 1] "me"
              freshWorld) as (successCount & w' & Hrun & _ & _).
  - reflexivity.
  - vm_compute. reflexivity.
  - exists w'. split; [exact Hrun|].
    vm_compute in Hrun. by injection Hrun as <-.
Defined.

(** X9 on a loop whose local identity is the empty string. *)
Lemma turn_without_identity_witness :
  @iteration expiryHasPassed failingFetch familyConversations weAreNobody
    freshWorld
  = (Returns tt,
     {| storage := ∅;
        heap := family;
        clock := (today + 60000)%Z;
        log := [(Info, WaitingFor 0); (Warn, MissingOurConversationId)] |}).
Proof.
  apply (@turn_without_identity expiryHasPassed failingFetch
           familyConversations weAreNobody freshWorld
           {| storage := ∅; heap := family; clock := today;
              log := [(Info, WaitingFor 0)] |}).
  - reflexivity.
  - by right.
Defined.

